(** * simplecache: a shallow embedding of [main.go] and its tick algorithm

    The Go package keeps a [map[any]Item[T]] (the store), a copy of it taken at
    the end of the previous tick (the snapshot), three batches of values and a
    map of counters.  Every exported method takes the cache's lock, so the
    methods and the locked section of a tick are modelled as atomic state
    transformers on a record; what Go leaves open (the iteration order of
    [range] over a map, the value of [time.Now()]) is passed in explicitly.
    A panic is a result of its own.  Callbacks are functions on a world
    outside the cache: they return, and they do not call back into it. *)

From stdpp Require Import gmap strings list fin_maps.
From Stdlib Require Import ZArith Lia.

Local Open Scope Z_scope.

(** ** Go's [int]: 64-bit two's complement with wrap-around *)

Module GoInt.

Definition min_int : Z := - 2 ^ 63.
Definition max_int : Z := 2 ^ 63 - 1.

Definition wrap (z : Z) : Z := (z + 2 ^ 63) mod 2 ^ 64 - 2 ^ 63.

Definition add (a b : Z) : Z := wrap (a + b).
Definition sub (a b : Z) : Z := wrap (a - b).

Definition in_range (z : Z) : Prop := min_int <= z <= max_int.

End GoInt.

(** ** [time.Time]: an instant counted in nanoseconds from the zero instant *)

Module GoTime.

Definition zero : Z := 0.
Definition IsZero (t : Z) : bool := t =? 0.
Definition Before (t u : Z) : bool := t <? u.
Definition After (t u : Z) : bool := u <? t.

End GoTime.

(** ** Keys: the dynamic type [any]

    A key is a boxed value.  The model covers the keys a Go map handles as
    ordinary keys: values of a hashable dynamic type whose equality is
    reflexive.  Strings are the one type the expire pass can unbox; an [int]
    stands for the others. *)

Inductive key : Type :=
  | KString (s : string)
  | KInt (n : Z).

#[global] Instance key_eq_dec : EqDecision key.
Proof. solve_decision. Defined.

Definition key_to_sum (k : key) : string + Z :=
  match k with KString s => inl s | KInt n => inr n end.

Definition key_of_sum (x : string + Z) : key :=
  match x with inl s => KString s | inr n => KInt n end.

#[global] Instance key_countable : Countable key.
Proof.
  apply (inj_countable' key_to_sum key_of_sum).
  intros []; reflexivity.
Defined.

(** [key.(string)]: the type assertion of line 219, partial. *)
Definition assert_string (k : key) : option string :=
  match k with KString s => Some s | KInt _ => None end.

(** ** Panics *)

Inductive panic : Type :=
  | PanicNonPositiveInterval
  | PanicInterfaceConversion (k : key)
  | PanicNilFunc.

Inductive result (A : Type) : Type :=
  | Ok (a : A)
  | Panic (p : panic).
Arguments Ok {A} a.
Arguments Panic {A} p.

#[global] Instance result_ret : MRet result := fun A a => Ok a.

#[global] Instance result_bind : MBind result := fun A B f r =>
  match r with
  | Ok a => f a
  | Panic p => Panic p
  end.

Definition is_ok {A : Type} (r : result A) : bool :=
  match r with Ok _ => true | Panic _ => false end.

(** ** Maps with Go's missing-key reads *)

Definition metric (m : gmap string Z) (name : string) : Z :=
  default 0 (m !! name).

(** What an instantiation [Cache[T]] fixes at compile time: the zero value of
    [T], returned by a missed [Get], and [unsafe.Sizeof] of an [Item[T]], of a
    [T] and of a [time.Time]. *)
Class GoType (T : Type) : Type := mkGoType {
  zeroT : T;
  sizeof_Item : Z;
  sizeof_Value : Z;
  sizeof_Expires : Z
}.

Section Cache.

Context {T W : Type} `{GoType T}.

Record Item : Type := mkItem {
  Value : T;
  Expires : Z
}.

Definition batch (u : gmap string (list T)) (name : string) : list T :=
  default [] (u !! name).

(** Callbacks act on the world [W] outside the cache. *)
Definition TickMiddleware : Type := W -> W.
Definition Middleware : Type := list T -> W -> W.
Definition ExpiryMiddleware : Type := string -> Item -> W -> W.

Record Cache : Type := mkCache {
  data : gmap key Item;
  prev : gmap key Item;
  interval : Z;
  compareFunc : option (T -> T -> bool);
  updates : gmap string (list T);
  beforeTickMiddleware : list TickMiddleware;
  afterTickMiddleware : list TickMiddleware;
  createMiddlewares : list Middleware;
  updateMiddlewares : list Middleware;
  deleteMiddlewares : list Middleware;
  expiryMiddlewares : list ExpiryMiddleware;
  Metrics : gmap string Z
}.

Definition set_data (d : gmap key Item) (c : Cache) : Cache :=
  mkCache d (prev c) (interval c) (compareFunc c) (updates c)
    (beforeTickMiddleware c) (afterTickMiddleware c) (createMiddlewares c)
    (updateMiddlewares c) (deleteMiddlewares c) (expiryMiddlewares c) (Metrics c).

Definition set_prev (p : gmap key Item) (c : Cache) : Cache :=
  mkCache (data c) p (interval c) (compareFunc c) (updates c)
    (beforeTickMiddleware c) (afterTickMiddleware c) (createMiddlewares c)
    (updateMiddlewares c) (deleteMiddlewares c) (expiryMiddlewares c) (Metrics c).

Definition set_updates (u : gmap string (list T)) (c : Cache) : Cache :=
  mkCache (data c) (prev c) (interval c) (compareFunc c) u
    (beforeTickMiddleware c) (afterTickMiddleware c) (createMiddlewares c)
    (updateMiddlewares c) (deleteMiddlewares c) (expiryMiddlewares c) (Metrics c).

Definition set_Metrics (m : gmap string Z) (c : Cache) : Cache :=
  mkCache (data c) (prev c) (interval c) (compareFunc c) (updates c)
    (beforeTickMiddleware c) (afterTickMiddleware c) (createMiddlewares c)
    (updateMiddlewares c) (deleteMiddlewares c) (expiryMiddlewares c) m.

(** [c.Metrics[name] = v] and [c.updates[name] = append(c.updates[name], v)]. *)
Definition store_metric (name : string) (v : Z) (c : Cache) : Cache :=
  set_Metrics (<[name := v]> (Metrics c)) c.

Definition append_update (name : string) (v : T) (c : Cache) : Cache :=
  set_updates (<[name := batch (updates c) name ++ [v]]> (updates c)) c.

(** [len(c.data)] *)
Definition len (d : gmap key Item) : Z := Z.of_nat (size d).

(** *** Construction and configuration (lines 40-101) *)

Definition New : Cache :=
  mkCache ∅ ∅ 0 None ∅ [] [] [] [] [] []
    (<["hits" := 0]> (<["misses" := 0]> (<["items" := 0]>
       (<["memoryUsageBytes" := 0]> ∅)))).

Definition Equals (f : T -> T -> bool) (c : Cache) : Cache :=
  mkCache (data c) (prev c) (interval c) (Some f) (updates c)
    (beforeTickMiddleware c) (afterTickMiddleware c) (createMiddlewares c)
    (updateMiddlewares c) (deleteMiddlewares c) (expiryMiddlewares c) (Metrics c).

Definition WithInterval (d : Z) (c : Cache) : Cache :=
  mkCache (data c) (prev c) d (compareFunc c) (updates c)
    (beforeTickMiddleware c) (afterTickMiddleware c) (createMiddlewares c)
    (updateMiddlewares c) (deleteMiddlewares c) (expiryMiddlewares c) (Metrics c).

Definition OnCreate (m : Middleware) (c : Cache) : Cache :=
  mkCache (data c) (prev c) (interval c) (compareFunc c) (updates c)
    (beforeTickMiddleware c) (afterTickMiddleware c) (createMiddlewares c ++ [m])
    (updateMiddlewares c) (deleteMiddlewares c) (expiryMiddlewares c) (Metrics c).

Definition OnUpdate (m : Middleware) (c : Cache) : Cache :=
  mkCache (data c) (prev c) (interval c) (compareFunc c) (updates c)
    (beforeTickMiddleware c) (afterTickMiddleware c) (createMiddlewares c)
    (updateMiddlewares c ++ [m]) (deleteMiddlewares c) (expiryMiddlewares c) (Metrics c).

Definition OnDelete (m : Middleware) (c : Cache) : Cache :=
  mkCache (data c) (prev c) (interval c) (compareFunc c) (updates c)
    (beforeTickMiddleware c) (afterTickMiddleware c) (createMiddlewares c)
    (updateMiddlewares c) (deleteMiddlewares c ++ [m]) (expiryMiddlewares c) (Metrics c).

Definition OnExpiry (m : ExpiryMiddleware) (c : Cache) : Cache :=
  mkCache (data c) (prev c) (interval c) (compareFunc c) (updates c)
    (beforeTickMiddleware c) (afterTickMiddleware c) (createMiddlewares c)
    (updateMiddlewares c) (deleteMiddlewares c) (expiryMiddlewares c ++ [m]) (Metrics c).

Definition OnBeforeTick (m : TickMiddleware) (c : Cache) : Cache :=
  mkCache (data c) (prev c) (interval c) (compareFunc c) (updates c)
    (beforeTickMiddleware c ++ [m]) (afterTickMiddleware c) (createMiddlewares c)
    (updateMiddlewares c) (deleteMiddlewares c) (expiryMiddlewares c) (Metrics c).

Definition OnAfterTick (m : TickMiddleware) (c : Cache) : Cache :=
  mkCache (data c) (prev c) (interval c) (compareFunc c) (updates c)
    (beforeTickMiddleware c) (afterTickMiddleware c ++ [m]) (createMiddlewares c)
    (updateMiddlewares c) (deleteMiddlewares c) (expiryMiddlewares c) (Metrics c).

(** *** The store operations (lines 103-193) *)

(** The size estimate of line 130; it reads only the static type of [item]. *)
Definition item_size (item : Item) : Z :=
  GoInt.add (GoInt.add sizeof_Item sizeof_Value) sizeof_Expires.

(** The estimate is the same for every item of the instantiation. *)
Definition size_estimate : Z :=
  GoInt.add (GoInt.add sizeof_Item sizeof_Value) sizeof_Expires.

Definition updateMemoryUsage (item : Item) (add : bool) (c : Cache) : Cache :=
  let size := item_size item in
  if add
  then store_metric "memoryUsageBytes"
         (GoInt.add (metric (Metrics c) "memoryUsageBytes") size) c
  else store_metric "memoryUsageBytes"
         (GoInt.sub (metric (Metrics c) "memoryUsageBytes") size) c.

(** [Set(key, value, expires...)]; the variadic argument is a list. *)
Definition Set_ (k : key) (value : T) (expires : list Z) (c : Cache) : Cache :=
  let expiration :=
    match expires with
    | e :: _ => e
    | [] => GoTime.zero
    end in
  let item := mkItem value expiration in
  let c1 :=
    match data c !! k with
    | Some existingItem => updateMemoryUsage existingItem false c
    | None => c
    end in
  let c2 := updateMemoryUsage item true c1 in
  let c3 := set_data (<[k := item]> (data c2)) c2 in
  store_metric "items" (len (data c3)) c3.

(** [Get(key)] at call time [now]: the value, the found flag, the new cache. *)
Definition Get (k : key) (now : Z) (c : Cache) : T * bool * Cache :=
  match data c !! k with
  | Some item =>
      if negb (GoTime.IsZero (Expires item)) && GoTime.Before (Expires item) now
      then (zeroT, false,
            store_metric "misses" (GoInt.add (metric (Metrics c) "misses") 1) c)
      else (Value item, true,
            store_metric "hits" (GoInt.add (metric (Metrics c) "hits") 1) c)
  | None =>
      (zeroT, false,
       store_metric "misses" (GoInt.add (metric (Metrics c) "misses") 1) c)
  end.

Definition Delete (k : key) (c : Cache) : Cache :=
  match data c !! k with
  | Some item =>
      let c1 := set_data (delete k (data c)) c in
      let c2 := updateMemoryUsage item false c1 in
      store_metric "items" (len (data c2)) c2
  | None => c
  end.

(** *** [range] over a map

    Go produces the entries of a map in an order it does not specify, and an
    entry removed before it is reached is not produced.  The order is an
    input: [ks] lists the keys as the loop meets them, and each key is looked
    up in the map as it is at that moment. *)

Fixpoint range {S : Type} (get : S -> gmap key Item)
    (body : key -> Item -> S -> result S) (ks : list key) (s : S) : result S :=
  match ks with
  | [] => Ok s
  | k :: ks' =>
      match get s !! k with
      | Some item => s' ← body k item s; range get body ks' s'
      | None => range get body ks' s
      end
  end.

(** An iteration order for each map the loop may be started on. *)
Definition RangeOrder : Type := gmap key Item -> list key.

Definition range_ok (o : RangeOrder) : Prop :=
  forall m : gmap key Item, o m ≡ₚ (map_to_list m).*1.

Definition GetAll (o : RangeOrder) (now_at : key -> Z) (c : Cache) : list T :=
  let body (k : key) (item : Item) (res : list T) :=
    if GoTime.IsZero (Expires item) || GoTime.After (Expires item) (now_at k)
    then res ++ [Value item]
    else res in
  fold_left (fun res k =>
               match data c !! k with
               | Some item => body k item res
               | None => res
               end) (o (data c)) [].

Definition DeleteAll (o : RangeOrder) (c : Cache) : Cache :=
  let c1 := fold_left (fun c' k =>
                         match data c' !! k with
                         | Some _ => set_data (delete k (data c')) c'
                         | None => c'
                         end) (o (data c)) c in
  let c2 := store_metric "memoryUsageBytes" 0 c1 in
  store_metric "items" 0 c2.

(** *** One tick of [Maintain] (lines 205-284) *)

(** What a tick takes from its surroundings: the order of each of its four
    [range] loops and, for the entry under key [k], the reading of
    [time.Now()] at the moment the expire pass examines it. *)
Record TickEnv : Type := mkTickEnv {
  ord_expire : RangeOrder;
  ord_diff : RangeOrder;
  ord_deleted : RangeOrder;
  ord_copy : RangeOrder;
  now_at : key -> Z
}.

Definition env_ok (e : TickEnv) : Prop :=
  range_ok (ord_expire e) /\ range_ok (ord_diff e) /\
  range_ok (ord_deleted e) /\ range_ok (ord_copy e).

Definition is_expired (now : Z) (item : Item) : bool :=
  negb (GoTime.IsZero (Expires item)) && GoTime.Before (Expires item) now.

(** Lines 218-220: the type assertion is evaluated once per callback. *)
Fixpoint call_expiry (ms : list ExpiryMiddleware) (k : key) (item : Item)
    (w : W) : result W :=
  match ms with
  | [] => Ok w
  | m :: ms' =>
      match assert_string k with
      | Some s => call_expiry ms' k item (m s item w)
      | None => Panic (PanicInterfaceConversion k)
      end
  end.

(** The state of the locked section: the cache, [processedDeletions] and the
    world the expiry callbacks act on. *)
Definition LockedState : Type := Cache * gset key * W.

Definition locked_data (s : LockedState) : gmap key Item := data s.1.1.

(** Lines 215-227. *)
Definition expire_body (now : key -> Z) (k : key) (item : Item)
    (s : LockedState) : result LockedState :=
  let '(c, processedDeletions, w) := s in
  if is_expired (now k) item
  then
    let c1 := append_update "deleted" (Value item) c in
    w1 ← call_expiry (expiryMiddlewares c1) k item w;
    let c2 := set_data (delete k (data c1)) c1 in
    let c3 := updateMemoryUsage item false c2 in
    let c4 := store_metric "items" (len (data c3)) c3 in
    Ok (c4, {[k]} ∪ processedDeletions, w1)
  else Ok s.

(** Lines 232-237; calling a nil [compareFunc] panics. *)
Definition diff_body (k : key) (item : Item) (c : Cache) : result Cache :=
  match prev c !! k with
  | None => Ok (append_update "created" (Value item) c)
  | Some prevItem =>
      match compareFunc c with
      | None => Panic PanicNilFunc
      | Some f =>
          if negb (f (Value item) (Value prevItem))
          then Ok (append_update "updated" (Value item) c)
          else Ok c
      end
  end.

(** Lines 242-248. *)
Definition deleted_body (processedDeletions : gset key) (k : key)
    (prevValue : Item) (c : Cache) : result Cache :=
  match data c !! k with
  | Some _ => Ok c
  | None =>
      if decide (k ∈ processedDeletions)
      then Ok c
      else Ok (append_update "deleted" (Value prevValue) c)
  end.

(** Line 253. *)
Definition copy_body (k : key) (item : Item) (c : Cache) : result Cache :=
  Ok (set_prev (<[k := item]> (prev c)) c).

Definition expire_pass (e : TickEnv) (s : LockedState) : result LockedState :=
  range locked_data (expire_body (now_at e)) (ord_expire e (locked_data s)) s.

Definition diff_pass (e : TickEnv) (c : Cache) : result Cache :=
  range data diff_body (ord_diff e (data c)) c.

Definition deleted_pass (e : TickEnv) (processedDeletions : gset key)
    (c : Cache) : result Cache :=
  range prev (deleted_body processedDeletions) (ord_deleted e (prev c)) c.

Definition copy_pass (e : TickEnv) (c : Cache) : result Cache :=
  range data copy_body (ord_copy e (data c)) (set_prev ∅ c).

(** Lines 209-256, from [c.Lock()] to [c.Unlock()]. *)
Definition tick_locked (e : TickEnv) (c : Cache) (w : W) : result (Cache * W) :=
  '(c1, processedDeletions, w1) ← expire_pass e (c, ∅, w);
  c2 ← diff_pass e c1;
  c3 ← deleted_pass e processedDeletions c2;
  c4 ← copy_pass e c3;
  Ok (c4, w1).

Definition call_ticks (ms : list TickMiddleware) (w : W) : W :=
  fold_left (fun w' m => m w') ms w.

Definition call_batch (ms : list Middleware) (records : list T) (w : W) : W :=
  fold_left (fun w' m => m records w') ms w.

(** Lines 259-275: a batch is handed over only when it is not empty. *)
Definition dispatch (ms : list Middleware) (records : list T) (w : W) : W :=
  if (0 <? Z.of_nat (length records)) then call_batch ms records w else w.

(** Lines 278-280. *)
Definition clear_updates (c : Cache) : Cache :=
  set_updates (<["deleted" := []]> (<["updated" := []]>
    (<["created" := []]> (updates c)))) c.

Definition tick (e : TickEnv) (c : Cache) (w : W) : result (Cache * W) :=
  let w0 := call_ticks (beforeTickMiddleware c) w in
  '(c1, w1) ← tick_locked e c w0;
  let w2 := dispatch (createMiddlewares c1) (batch (updates c1) "created") w1 in
  let w3 := dispatch (updateMiddlewares c1) (batch (updates c1) "updated") w2 in
  let w4 := dispatch (deleteMiddlewares c1) (batch (updates c1) "deleted") w3 in
  let c2 := clear_updates c1 in
  Ok (c2, call_ticks (afterTickMiddleware c2) w4).

(** *** Callers and the loop, interleaved

    The methods and the locked section of a tick exclude each other through
    the lock, so a run of the program is a sequence of them; [OpTick] is the
    ticker firing and the loop running one tick. *)
Inductive op : Type :=
  | OpSet (k : key) (value : T) (expires : list Z)
  | OpGet (k : key) (now : Z)
  | OpGetAll (o : RangeOrder) (now : key -> Z)
  | OpDelete (k : key)
  | OpDeleteAll (o : RangeOrder)
  | OpTick (e : TickEnv).

Definition op_ok (o : op) : Prop :=
  match o with
  | OpGetAll r _ => range_ok r
  | OpDeleteAll r => range_ok r
  | OpTick e => env_ok e
  | _ => True
  end.

Definition step (o : op) (s : Cache * W) : result (Cache * W) :=
  let '(c, w) := s in
  match o with
  | OpSet k v expires => Ok (Set_ k v expires c, w)
  | OpGet k now => Ok ((Get k now c).2, w)
  | OpGetAll _ _ => Ok (c, w)
  | OpDelete k => Ok (Delete k c, w)
  | OpDeleteAll r => Ok (DeleteAll r c, w)
  | OpTick e => tick e c w
  end.

Fixpoint run (ops : list op) (s : Cache * W) : result (Cache * W) :=
  match ops with
  | [] => Ok s
  | o :: ops' => s' ← step o s; run ops' s'
  end.

(** [Maintain] (lines 195-207): [time.NewTicker] panics on a non-positive
    interval; after that the loop serves the ticker until it receives from
    [stopChan].  [sched] is what takes the lock, in order, from the start of
    the loop to that receipt: the calls of other goroutines and the ticks. *)
Definition NewTicker (d : Z) : result unit :=
  if d <=? 0 then Panic PanicNonPositiveInterval else Ok tt.

Definition Maintain (sched : list op) (c : Cache) (w : W) : result (Cache * W) :=
  _ ← NewTicker (interval c);
  run sched (c, w).

(** *** Vocabulary for stating what a tick does

    The batches hold values, not keys; to say which key put which value
    there, the statements name the keys a pass selects from the keys [ks] it
    ranges over, in the order it meets them. *)

Definition expired_at (now : key -> Z) (d : gmap key Item) (k : key) : bool :=
  match d !! k with
  | Some item => is_expired (now k) item
  | None => false
  end.

Definition created_at (d p : gmap key Item) (k : key) : bool :=
  match d !! k, p !! k with
  | Some _, None => true
  | _, _ => false
  end.

Definition updated_at (f : T -> T -> bool) (d p : gmap key Item) (k : key) : bool :=
  match d !! k, p !! k with
  | Some item, Some prevItem => negb (f (Value item) (Value prevItem))
  | _, _ => false
  end.

Definition gone_at (d : gmap key Item) (processed : gset key) (k : key) : bool :=
  match d !! k with
  | Some _ => false
  | None => bool_decide (k ∉ processed)
  end.

Definition expired_keys (now : key -> Z) (d : gmap key Item) (ks : list key)
    : list key :=
  filter (fun k => expired_at now d k) ks.

Definition created_keys (d p : gmap key Item) (ks : list key) : list key :=
  filter (fun k => created_at d p k) ks.

Definition updated_keys (f : T -> T -> bool) (d p : gmap key Item)
    (ks : list key) : list key :=
  filter (fun k => updated_at f d p k) ks.

Definition gone_keys (d : gmap key Item) (processed : gset key)
    (ks : list key) : list key :=
  filter (fun k => gone_at d processed k) ks.

(** The values a map holds under the keys [ks], in that order. *)
Definition values_at (d : gmap key Item) (ks : list key) : list T :=
  omap (fun k => Value <$> d !! k) ks.

(** The store without its expired entries. *)
Definition unexpired (now : key -> Z) (d : gmap key Item) : gmap key Item :=
  filter (fun kv => is_expired (now kv.1) kv.2 = false) d.

(** The type assertion of the expire pass succeeds wherever it is reached:
    there is no expiry callback, or every expired entry has a string key. *)
Definition expiry_keys_ok (now : key -> Z) (c : Cache) : Prop :=
  expiryMiddlewares c = [] \/
  forall k item, data c !! k = Some item -> is_expired (now k) item = true ->
                 is_Some (assert_string k).

(** What the expire pass does to the cache for one expired entry. *)
Definition expire_entry (k : key) (item : Item) (c : Cache) : Cache :=
  store_metric "items" (len (delete k (data c)))
    (updateMemoryUsage item false
       (set_data (delete k (data c)) (append_update "deleted" (Value item) c))).

(** The comparison step is reached only with a predicate in place: the cache
    is configured with [f], or no key of the store [d] is in the snapshot. *)
Definition compare_ready (f : T -> T -> bool) (c : Cache)
    (d : gmap key Item) : Prop :=
  compareFunc c = Some f \/
  (compareFunc c = None /\ forall k, is_Some (d !! k) -> prev c !! k = None).

(** Every registered expiry callback, in registration order, on one entry. *)
Definition expiry_calls_one (ms : list ExpiryMiddleware) (s : string)
    (item : Item) (w : W) : W :=
  fold_left (fun w' m => m s item w') ms w.

(** The same for the entries under the keys [ks], one after the other. *)
Definition expiry_calls (ms : list ExpiryMiddleware) (d : gmap key Item)
    (ks : list key) (w : W) : W :=
  fold_left (fun w' k =>
               match d !! k, assert_string k with
               | Some item, Some s => expiry_calls_one ms s item w'
               | _, _ => w'
               end) ks w.

(** The sum of the size estimates of the entries of a store, in [int]
    arithmetic and in the integers. *)
Definition store_bytes (d : gmap key Item) : Z :=
  foldr (fun kv acc => GoInt.add acc (item_size kv.2)) 0 (map_to_list d).

Definition store_bytes_exact (d : gmap key Item) : Z :=
  foldr (fun kv acc => acc + item_size kv.2) 0 (map_to_list d).

(** The counters agree with the store. *)
Definition metrics_consistent (c : Cache) : Prop :=
  metric (Metrics c) "items" = len (data c) /\
  metric (Metrics c) "memoryUsageBytes" = store_bytes (data c).

(** Every key of the store is a string; a call that sets only such keys. *)
Definition string_keyed (d : gmap key Item) : Prop :=
  forall k, is_Some (d !! k) -> is_Some (assert_string k).

Definition string_op (o : op) : Prop :=
  match o with
  | OpSet k _ _ => is_Some (assert_string k)
  | _ => True
  end.

(** A state from which a run of string-keyed calls and ticks goes through. *)
Definition runnable (f : T -> T -> bool) (s : Cache * W) : Prop :=
  compareFunc s.1 = Some f /\ string_keyed (data s.1).

(** The three batches are empty, as they are between two ticks. *)
Definition batches_empty (c : Cache) : Prop :=
  batch (updates c) "created" = [] /\
  batch (updates c) "updated" = [] /\
  batch (updates c) "deleted" = [].

(** A run of [Set] calls. *)
Definition set_all (calls : list (key * T * list Z)) (c : Cache) : Cache :=
  fold_left (fun c' call => Set_ call.1.1 call.1.2 call.2 c') calls c.

(** *** Vocabulary for [GetAll] and for the configuration calls *)

(** The test of line 162 on the entry under [k]. *)
Definition listed_at (now : key -> Z) (d : gmap key Item) (k : key) : bool :=
  match d !! k with
  | Some item =>
      GoTime.IsZero (Expires item) || GoTime.After (Expires item) (now k)
  | None => false
  end.

Definition listed_keys (now : key -> Z) (d : gmap key Item) (ks : list key)
    : list key :=
  filter (fun k => listed_at now d k) ks.

(** One call of the fluent configuration surface (lines 55-101). *)
Inductive config : Type :=
  | CfgEquals (f : T -> T -> bool)
  | CfgWithInterval (d : Z)
  | CfgOnCreate (m : Middleware)
  | CfgOnUpdate (m : Middleware)
  | CfgOnDelete (m : Middleware)
  | CfgOnExpiry (m : ExpiryMiddleware)
  | CfgOnBeforeTick (m : TickMiddleware)
  | CfgOnAfterTick (m : TickMiddleware).

Definition apply_config (cfg : config) (c : Cache) : Cache :=
  match cfg with
  | CfgEquals f => Equals f c
  | CfgWithInterval d => WithInterval d c
  | CfgOnCreate m => OnCreate m c
  | CfgOnUpdate m => OnUpdate m c
  | CfgOnDelete m => OnDelete m c
  | CfgOnExpiry m => OnExpiry m c
  | CfgOnBeforeTick m => OnBeforeTick m c
  | CfgOnAfterTick m => OnAfterTick m c
  end.

(** A chain of configuration calls, first call first. *)
Definition configure (cfgs : list config) (c : Cache) : Cache :=
  fold_left (fun c' cfg => apply_config cfg c') cfgs c.

(** What a chain asks for, read off the chain alone. *)
Definition last_interval (cfgs : list config) : option Z :=
  fold_left (fun acc cfg =>
               match cfg with CfgWithInterval d => Some d | _ => acc end)
    cfgs None.

Definition last_equals (cfgs : list config) : option (T -> T -> bool) :=
  fold_left (fun acc cfg =>
               match cfg with CfgEquals f => Some f | _ => acc end)
    cfgs None.

Definition asked_create (cfgs : list config) : list Middleware :=
  omap (fun cfg => match cfg with CfgOnCreate m => Some m | _ => None end) cfgs.

Definition asked_update (cfgs : list config) : list Middleware :=
  omap (fun cfg => match cfg with CfgOnUpdate m => Some m | _ => None end) cfgs.

Definition asked_delete (cfgs : list config) : list Middleware :=
  omap (fun cfg => match cfg with CfgOnDelete m => Some m | _ => None end) cfgs.

Definition asked_expiry (cfgs : list config) : list ExpiryMiddleware :=
  omap (fun cfg => match cfg with CfgOnExpiry m => Some m | _ => None end) cfgs.

Definition asked_before (cfgs : list config) : list TickMiddleware :=
  omap (fun cfg => match cfg with CfgOnBeforeTick m => Some m | _ => None end) cfgs.

Definition asked_after (cfgs : list config) : list TickMiddleware :=
  omap (fun cfg => match cfg with CfgOnAfterTick m => Some m | _ => None end) cfgs.

(** No entry of the store is expired at the clock readings of the tick. *)
Definition none_expired (now : key -> Z) (d : gmap key Item) : Prop :=
  forall k item, d !! k = Some item -> is_expired (now k) item = false.

(** The predicate holds between each stored value and itself. *)
Definition reflexive_on (f : T -> T -> bool) (d : gmap key Item) : Prop :=
  forall k item, d !! k = Some item -> f (Value item) (Value item) = true.

(** The world a tick leaves behind: the before-tick callbacks, the expiry
    callbacks of the expired entries, the create, update and delete callbacks
    on their batches, the after-tick callbacks, in that order. *)
Definition tick_world (e : TickEnv) (f : T -> T -> bool) (c : Cache) (w : W) : W :=
  let d1 := unexpired (now_at e) (data c) in
  let eks := expired_keys (now_at e) (data c) (ord_expire e (data c)) in
  let created := values_at d1 (created_keys d1 (prev c) (ord_diff e d1)) in
  let updated := values_at d1 (updated_keys f d1 (prev c) (ord_diff e d1)) in
  let deleted :=
    values_at (data c) eks ++
    values_at (prev c)
      (gone_keys d1 (list_to_set eks) (ord_deleted e (prev c))) in
  call_ticks (afterTickMiddleware c)
    (dispatch (deleteMiddlewares c) deleted
       (dispatch (updateMiddlewares c) updated
          (dispatch (createMiddlewares c) created
             (expiry_calls (expiryMiddlewares c) (data c) eks
                (call_ticks (beforeTickMiddleware c) w))))).

End Cache.

(** ** [Stop] and the loop's [select] (lines 26, 45, 199-203, 289-291)

    [stopChan] is made without a buffer, so the send in [Stop] completes only
    in a hand-off with a receive, and the one receive in the program is the
    first case of the loop's [select]; on it the loop returns.  The model
    follows one invocation of [Maintain] and any number of goroutines inside
    [Stop]. *)

Module StopChan.

(** The goroutine running [Maintain]: not started yet, blocked in [select],
    inside the body of a tick, or returned. *)
Inductive loop_state : Type := NotStarted | Selecting | Ticking | Returned.

(** A goroutine that called [Stop]: blocked at the send, or returned. *)
Inductive caller_state : Type := Sending | Done.

Record system : Type := mkSystem {
  loop : loop_state;
  callers : list caller_state
}.

Inductive label : Type :=
  | GoMaintain
  | TickerFires
  | TickDone
  | CallStop
  | Receive (i : nat).

Definition step (l : label) (s : system) : option system :=
  match l with
  | GoMaintain =>
      match loop s with
      | NotStarted => Some (mkSystem Selecting (callers s))
      | _ => None
      end
  | TickerFires =>
      match loop s with
      | Selecting => Some (mkSystem Ticking (callers s))
      | _ => None
      end
  | TickDone =>
      match loop s with
      | Ticking => Some (mkSystem Selecting (callers s))
      | _ => None
      end
  | CallStop => Some (mkSystem (loop s) (callers s ++ [Sending]))
  | Receive i =>
      match loop s, callers s !! i with
      | Selecting, Some Sending =>
          Some (mkSystem Returned (<[i := Done]> (callers s)))
      | _, _ => None
      end
  end.

Fixpoint exec (ls : list label) (s : system) : option system :=
  match ls with
  | [] => Some s
  | l :: ls' =>
      match step l s with
      | Some s' => exec ls' s'
      | None => None
      end
  end.

Definition init : system := mkSystem NotStarted [].

Definition is_done (c : caller_state) : bool :=
  match c with Done => true | Sending => false end.

(** How many [Stop] calls have returned. *)
Definition returned_stops (s : system) : nat :=
  length (List.filter is_done (callers s)).

(** One [Stop] call has returned if the loop has, and none otherwise. *)
Definition stops_match_loop (s : system) : Prop :=
  returned_stops s = match loop s with Returned => 1%nat | _ => 0%nat end.

End StopChan.

(** ** A concrete instantiation: the [TestStruct] of the package's tests *)

Module Demo.

Record TestStruct : Type := mkTestStruct {
  Name : string;
  Age : Z
}.

(** On a 64-bit target a [TestStruct] takes 24 bytes, a [time.Time] 24 and an
    [Item[TestStruct]] 48. *)
#[global] Instance TestStruct_GoType : GoType TestStruct :=
  mkGoType TestStruct (mkTestStruct "" 0) 48 24 24.

Definition eqFunc (a b : TestStruct) : bool :=
  String.eqb (Name a) (Name b) && (Age a =? Age b).

(** The world of the callbacks: the record of their calls. *)
Inductive call : Type :=
  | Created (records : list TestStruct)
  | Updated (records : list TestStruct)
  | Deleted (records : list TestStruct)
  | Expired (k : string) (item : @Item TestStruct).

Definition World : Type := list call.

Definition alice30 : TestStruct := mkTestStruct "Alice" 30.
Definition alice31 : TestStruct := mkTestStruct "Alice" 31.
Definition bob25 : TestStruct := mkTestStruct "Bob" 25.

(** The order in which the map library lists a map, and a tick at which every
    reading of the clock is [now]. *)
Definition listed : @RangeOrder TestStruct := fun m => (map_to_list m).*1.

Definition env (now : Z) : @TickEnv TestStruct :=
  mkTickEnv listed listed listed listed (fun _ => now).

(** A cache with an interval and callbacks but no equality predicate, and the
    same with the predicate. *)
Definition unconfigured : @Cache TestStruct World :=
  OnDelete (fun records w => w ++ [Deleted records])
    (OnUpdate (fun records w => w ++ [Updated records])
       (OnCreate (fun records w => w ++ [Created records])
          (WithInterval 500 New))).

Definition configured : @Cache TestStruct World := Equals eqFunc unconfigured.

Definition with_expiry : @Cache TestStruct World :=
  OnExpiry (fun k item w => w ++ [Expired k item]) configured.

(** The cache a run leaves, and the starting cache if the run panics. *)
Definition after (ops : list (@op TestStruct))
    (c : @Cache TestStruct World) : @Cache TestStruct World :=
  match run ops (c, []) with
  | Ok (c', _) => c'
  | Panic _ => c
  end.

(** [item1] set and seen by one tick. *)
Definition ticked : @Cache TestStruct World :=
  after [OpSet (KString "item1") alice30 []; OpTick (env 1)] with_expiry.

(** After that tick: [item2] set with an expiry at 5 and [item1] deleted. *)
Definition churned : @Cache TestStruct World :=
  after [OpSet (KString "item2") bob25 [5]; OpDelete (KString "item1")] ticked.

(** An entry under the key [7], an [int], with an expiry at 5. *)
Definition int_keyed (c : @Cache TestStruct World) : @Cache TestStruct World :=
  Set_ (KInt 7) alice30 [5] c.

End Demo.

(** * Properties *)

(** ** Arithmetic of [int] *)

Module GoIntFacts.
Import GoInt.

Lemma wrap_shift (z k : Z) : wrap (z + k * 2 ^ 64) = wrap z.
Proof.
  unfold wrap.
  replace (z + k * 2 ^ 64 + 2 ^ 63) with (z + 2 ^ 63 + k * 2 ^ 64) by ring.
  rewrite Z.mod_add by lia. reflexivity.
Qed.

Lemma wrap_decomp (z : Z) : exists k, wrap z = z + k * 2 ^ 64.
Proof.
  exists (- ((z + 2 ^ 63) / 2 ^ 64)). unfold wrap.
  rewrite Z.mod_eq by lia. ring.
Qed.

Lemma wrap_range (z : Z) : in_range (wrap z).
Proof.
  unfold in_range, wrap, min_int, max_int.
  pose proof (Z.mod_pos_bound (z + 2 ^ 63) (2 ^ 64)). lia.
Qed.

Lemma wrap_id (z : Z) : in_range z -> wrap z = z.
Proof.
  unfold in_range, wrap, min_int, max_int. intros Hz.
  rewrite Z.mod_small by lia. lia.
Qed.

Lemma wrap_add_l (a b : Z) : wrap (wrap a + b) = wrap (a + b).
Proof.
  destruct (wrap_decomp a) as [k ->].
  replace (a + k * 2 ^ 64 + b) with (a + b + k * 2 ^ 64) by ring.
  apply wrap_shift.
Qed.

Lemma wrap_add_r (a b : Z) : wrap (a + wrap b) = wrap (a + b).
Proof. rewrite (Z.add_comm a), wrap_add_l. f_equal. ring. Qed.

Lemma wrap_sub_l (a b : Z) : wrap (wrap a - b) = wrap (a - b).
Proof. unfold Z.sub. apply wrap_add_l. Qed.

Lemma wrap_sub_r (a b : Z) : wrap (a - wrap b) = wrap (a - b).
Proof.
  destruct (wrap_decomp b) as [k ->].
  replace (a - (b + k * 2 ^ 64)) with (a - b + (- k) * 2 ^ 64) by ring.
  apply wrap_shift.
Qed.

Lemma wrap_wrap (a : Z) : wrap (wrap a) = wrap a.
Proof. apply wrap_id, wrap_range. Qed.

End GoIntFacts.

Section CacheProperties.

Context {T W : Type} `{GoType T}.

Implicit Types (c : @Cache T W) (k : key) (item : @Item T) (w : W).

#[local] Arguments values_at : simpl never.
#[local] Arguments expired_keys : simpl never.
#[local] Arguments created_keys : simpl never.
#[local] Arguments updated_keys : simpl never.
#[local] Arguments gone_keys : simpl never.
#[local] Arguments expiry_calls : simpl never.

(** ** Reading the record through the setters *)

Lemma metric_insert (m : gmap string Z) (n n' : string) (v : Z) :
  metric (<[n := v]> m) n' = if decide (n = n') then v else metric m n'.
Proof. unfold metric. rewrite lookup_insert. by case_decide. Qed.

Lemma batch_insert (u : gmap string (list T)) (n n' : string) (l : list T) :
  batch (<[n := l]> u) n' = if decide (n = n') then l else batch u n'.
Proof. unfold batch. rewrite lookup_insert. by case_decide. Qed.

(** ** Set *)

(** C10: Set takes its expiry as an optional trailing argument list.  With none
    the stored item carries the zero timestamp and is expired at no instant;
    with one or more, the first is stored and the others play no part. *)
Theorem Set_expires_first_or_never (k : key) (value : T) (c : @Cache T W) :
  data (Set_ k value [] c) !! k = Some (mkItem value GoTime.zero) /\
  (forall now, is_expired now (mkItem value GoTime.zero) = false) /\
  (forall e rest, data (Set_ k value (e :: rest) c) !! k = Some (mkItem value e)) /\
  (forall e rest, Set_ k value (e :: rest) c = Set_ k value [e] c).
Proof.
  split; [|split; [|split]].
  - unfold Set_. simpl. apply lookup_insert_eq.
  - intros now. reflexivity.
  - intros e rest. unfold Set_. simpl. apply lookup_insert_eq.
  - intros e rest. reflexivity.
Qed.

(** ** Delete *)

(** C8: Delete of a key the store does not hold returns the cache as it was,
    store and all four counters included; Delete of a held key removes the
    entry, takes its size estimate off memoryUsageBytes and sets items to the
    new entry count, leaving hits and misses alone. *)
Theorem Delete_absent_noop_present_removes (k : key) (c : @Cache T W) :
  match data c !! k with
  | None => Delete k c = c
  | Some item =>
      data (Delete k c) = delete k (data c) /\
      metric (Metrics (Delete k c)) "memoryUsageBytes" =
        GoInt.sub (metric (Metrics c) "memoryUsageBytes") (item_size item) /\
      metric (Metrics (Delete k c)) "items" = len (delete k (data c)) /\
      metric (Metrics (Delete k c)) "hits" = metric (Metrics c) "hits" /\
      metric (Metrics (Delete k c)) "misses" = metric (Metrics c) "misses" /\
      prev (Delete k c) = prev c /\ updates (Delete k c) = updates c
  end.
Proof.
  unfold Delete. destruct (data c !! k) as [item|]; [|done].
  simpl. rewrite !metric_insert. simpl. done.
Qed.

(** ** Get *)

(** C4: Get misses exactly when the key is absent or its expiry is non-zero
    and strictly before the call time; a miss returns the zero value with
    found=false and adds one to misses, a hit returns the stored value with
    found=true and adds one to hits; neither touches the store.  Right after a
    Set without expiry, Get returns the value just set, whatever the time. *)
Theorem Get_hit_or_miss (k : key) (now : Z) (c : @Cache T W) :
  let r := Get k now c in
  let miss := data c !! k = None \/
              exists item, data c !! k = Some item /\
                           Expires item <> 0 /\ Expires item < now in
  (r.1.2 = false <-> miss) /\
  (r.1.2 = false ->
     r.1.1 = zeroT /\
     metric (Metrics r.2) "misses" = GoInt.add (metric (Metrics c) "misses") 1 /\
     metric (Metrics r.2) "hits" = metric (Metrics c) "hits") /\
  (r.1.2 = true ->
     (exists item, data c !! k = Some item /\ r.1.1 = Value item) /\
     metric (Metrics r.2) "hits" = GoInt.add (metric (Metrics c) "hits") 1 /\
     metric (Metrics r.2) "misses" = metric (Metrics c) "misses") /\
  data r.2 = data c /\ prev r.2 = prev c /\
  (forall value c0 now0, (Get k now0 (Set_ k value [] c0)).1 = (value, true)).
Proof.
  cbv zeta. unfold Get.
  destruct (data c !! k) as [item|] eqn:Hk.
  - unfold GoTime.IsZero, GoTime.Before.
    destruct (Z.eqb_spec (Expires item) 0) as [Hz|Hz];
      destruct (Z.ltb_spec (Expires item) now) as [Hlt|Hlt]; simpl;
      rewrite ?metric_insert; simpl;
      (split; [split; [try done|] |]);
      try (intros [?|(item' & ? & ? & ?)]; simplify_eq; lia);
      try (intros _; right; exists item; done);
      (split; [try done; intros _; eauto|]);
      (split; [try done; intros _; eauto|]);
      (split; [done|split; [done|]]).
    all: intros value c0 now0; unfold Set_; simpl;
      rewrite lookup_insert_eq; reflexivity.
  - simpl. rewrite ?metric_insert; simpl.
    split; [split; [intros _; by left|done]|].
    split; [done|]. split; [done|]. split; [done|]. split; [done|].
    intros value c0 now0; unfold Set_; simpl.
    rewrite lookup_insert_eq; reflexivity.
Qed.

(** ** Loops over a map *)

(** A loop whose body keeps a property keeps it. *)
Lemma range_preserves {S : Type} (P : S -> Prop) (get : S -> gmap key (@Item T))
    (body : key -> @Item T -> S -> result S) (ks : list key) :
  (forall k item s s',
      get s !! k = Some item -> P s -> body k item s = Ok s' -> P s') ->
  forall s s', P s -> range get body ks s = Ok s' -> P s'.
Proof.
  intros Hbody. induction ks as [|k ks IH]; intros s s' Hs Hrun; simpl in Hrun.
  - by simplify_eq.
  - destruct (get s !! k) as [item|] eqn:Hk; [|by eapply IH].
    destruct (body k item s) as [s1|p] eqn:Hb; simpl in Hrun; [|done].
    eapply IH; [|done]. by eapply Hbody.
Qed.

(** The vocabulary reads a map only under the keys it is given. *)
Lemma filter_keys_ext (P1 P2 : key -> bool) (ks : list key) :
  (forall k, k ∈ ks -> P1 k = P2 k) ->
  filter (fun k => P1 k) ks = filter (fun k => P2 k) ks.
Proof.
  induction ks as [|k ks IH]; intros Hext; [done|].
  rewrite !filter_cons, (Hext k) by apply list_elem_of_here.
  rewrite IH; [done|]. intros j Hj. apply Hext. by apply list_elem_of_further.
Qed.

Lemma filter_keys_cons (P : key -> bool) k (ks : list key) :
  filter (fun j => P j) (k :: ks) =
  if P k then k :: filter (fun j => P j) ks else filter (fun j => P j) ks.
Proof. rewrite filter_cons. by destruct (P k). Qed.

Lemma values_at_cons (d : gmap key (@Item T)) k (ks : list key) :
  values_at d (k :: ks) =
  match d !! k with
  | Some item => Value item :: values_at d ks
  | None => values_at d ks
  end.
Proof. unfold values_at. simpl. by destruct (d !! k). Qed.

Lemma values_at_ext (d1 d2 : gmap key (@Item T)) (ks : list key) :
  (forall k, k ∈ ks -> d1 !! k = d2 !! k) -> values_at d1 ks = values_at d2 ks.
Proof.
  induction ks as [|k ks IH]; intros Hext; [done|].
  rewrite !values_at_cons, (Hext k) by apply list_elem_of_here.
  rewrite IH; [done|]. intros j Hj. apply Hext. by apply list_elem_of_further.
Qed.

Lemma expired_keys_ext (now : key -> Z) (d1 d2 : gmap key (@Item T)) (ks : list key) :
  (forall k, k ∈ ks -> d1 !! k = d2 !! k) ->
  expired_keys now d1 ks = expired_keys now d2 ks.
Proof.
  intros Hext. apply filter_keys_ext. intros k Hk.
  unfold expired_at. by rewrite Hext.
Qed.

Lemma expiry_calls_cons (ms : list (@ExpiryMiddleware T W))
    (d : gmap key (@Item T)) k (ks : list key) w :
  expiry_calls ms d (k :: ks) w =
  expiry_calls ms d ks
    match d !! k, assert_string k with
    | Some item, Some s => expiry_calls_one ms s item w
    | _, _ => w
    end.
Proof. reflexivity. Qed.

Lemma expiry_calls_ext (ms : list (@ExpiryMiddleware T W))
    (d1 d2 : gmap key (@Item T)) (ks : list key) :
  (forall k, k ∈ ks -> d1 !! k = d2 !! k) ->
  forall w, expiry_calls ms d1 ks w = expiry_calls ms d2 ks w.
Proof.
  induction ks as [|k ks IH]; intros Hext w; [done|].
  rewrite !expiry_calls_cons, (Hext k) by apply list_elem_of_here.
  apply IH. intros j Hj. apply Hext. by apply list_elem_of_further.
Qed.

Lemma expired_keys_subseteq (now : key -> Z) (d : gmap key (@Item T)) (ks : list key) k :
  k ∈ expired_keys now d ks -> k ∈ ks.
Proof. unfold expired_keys. rewrite list_elem_of_filter. tauto. Qed.

(** Under keys the map holds, [values_at] yields one value per key. *)
Lemma length_values_at (d : gmap key (@Item T)) (ks : list key) :
  (forall k, k ∈ ks -> is_Some (d !! k)) -> length (values_at d ks) = length ks.
Proof.
  induction ks as [|k ks IH]; intros Hin; [done|].
  rewrite values_at_cons.
  destruct (Hin k) as [item Hk]; [apply list_elem_of_here|].
  rewrite Hk. simpl. f_equal. apply IH. intros j Hj. apply Hin.
  by apply list_elem_of_further.
Qed.

(** *** The expiry callbacks of one entry *)

Lemma call_expiry_string (ms : list (@ExpiryMiddleware T W)) k (s : string) item w :
  assert_string k = Some s ->
  call_expiry ms k item w = Ok (expiry_calls_one ms s item w).
Proof.
  intros Hs. revert w. induction ms as [|m ms IH]; intros w; simpl; [done|].
  rewrite Hs. apply IH.
Qed.

Lemma call_expiry_not_string (ms : list (@ExpiryMiddleware T W)) k item w :
  assert_string k = None -> ms <> [] ->
  call_expiry ms k item w = Panic (PanicInterfaceConversion k).
Proof. intros Hs Hms. destruct ms; [done|]. simpl. by rewrite Hs. Qed.


Lemma call_expiry_ok (now : key -> Z) c k item w :
  expiry_keys_ok now c -> data c !! k = Some item ->
  is_expired (now k) item = true ->
  call_expiry (expiryMiddlewares c) k item w =
  Ok match assert_string k with
     | Some s => expiry_calls_one (expiryMiddlewares c) s item w
     | None => w
     end.
Proof.
  intros [Hms|Hstr] Hk Hexp.
  - rewrite Hms. simpl. by destruct (assert_string k).
  - destruct (Hstr k item Hk Hexp) as [s Hs]. rewrite Hs.
    by apply call_expiry_string.
Qed.

Lemma set_fields_id c :
  set_Metrics (Metrics c) (set_updates (updates c) (set_data (data c) c)) = c.
Proof. by destruct c. Qed.

Lemma range_cons {S : Type} (get : S -> gmap key (@Item T))
    (body : key -> @Item T -> S -> result S) k (ks : list key) (s : S) :
  range get body (k :: ks) s =
  match get s !! k with
  | Some item => s' ← body k item s; range get body ks s'
  | None => range get body ks s
  end.
Proof. reflexivity. Qed.

Lemma expire_body_expired (now : key -> Z) k item c (P : gset key) w w1 :
  is_expired (now k) item = true ->
  call_expiry (expiryMiddlewares c) k item w = Ok w1 ->
  expire_body now k item (c, P, w) = Ok (expire_entry k item c, {[k]} ∪ P, w1).
Proof. intros Hexp Hcall. unfold expire_body. rewrite Hexp. simpl. by rewrite Hcall. Qed.

Lemma expire_body_fresh (now : key -> Z) k item (s : @LockedState T W) :
  is_expired (now k) item = false -> expire_body now k item s = Ok s.
Proof. intros Hexp. unfold expire_body. destruct s as [[c P] w]. by rewrite Hexp. Qed.

(** *** The expire pass, over any duplicate-free list of keys *)

Lemma expire_range_spec (now : key -> Z) (ks : list key) :
  NoDup ks ->
  forall c (P : gset key) w,
  expiry_keys_ok now c ->
  let eks := expired_keys now (data c) ks in
  exists d' u' m' P',
    range locked_data (expire_body now) ks (c, P, w) =
      Ok (set_Metrics m' (set_updates u' (set_data d' c)), P',
          expiry_calls (expiryMiddlewares c) (data c) eks w) /\
    (forall j, d' !! j = if decide (j ∈ eks) then None else data c !! j) /\
    (forall j, j ∈ P' <-> j ∈ eks \/ j ∈ P) /\
    (forall n, batch u' n =
               if decide (n = "deleted")
               then batch (updates c) "deleted" ++ values_at (data c) eks
               else batch (updates c) n) /\
    (forall n, metric m' n =
               if decide (n = "memoryUsageBytes")
               then fold_left (fun acc _ => GoInt.sub acc size_estimate) eks
                      (metric (Metrics c) "memoryUsageBytes")
               else if decide (n = "items")
               then match eks with
                    | [] => metric (Metrics c) "items"
                    | _ :: _ => len d'
                    end
               else metric (Metrics c) n).
Proof.
  induction ks as [|k ks IH]; intros Hnd c P w Hsafe eks.
  - exists (data c), (updates c), (Metrics c), P. subst eks. simpl.
    rewrite set_fields_id. split; [done|]. split; [done|].
    split; [intros j; unfold expired_keys; rewrite filter_nil, elem_of_nil; tauto|].
    split; intros n; repeat case_decide; subst; by rewrite ?app_nil_r.
  - apply NoDup_cons in Hnd as [Hk_ks Hnd].
    assert (Hdel : forall j, j ∈ ks -> delete k (data c) !! j = data c !! j).
    { intros j Hj. apply lookup_delete_ne. by intros ->. }
    rewrite range_cons. unfold locked_data at 1. cbn [fst].
    destruct (data c !! k) as [item|] eqn:Hk.
    + destruct (is_expired (now k) item) eqn:Hexp.
      * rewrite (expire_body_expired now k item c P w _ Hexp
                   (call_expiry_ok now c k item w Hsafe Hk Hexp)).
        set (w1 := match assert_string k with Some _ => _ | None => _ end).
        set (c4 := expire_entry k item c).
        assert (Hsafe4 : expiry_keys_ok now c4).
        { destruct Hsafe as [Hms|Hstr]; [by left|right].
          intros j item' Hj. apply Hstr.
          subst c4. simpl in Hj. by apply lookup_delete_Some in Hj as [_ ?]. }
        destruct (IH Hnd c4 ({[k]} ∪ P) w1 Hsafe4)
          as (d' & u' & m' & P' & Hrun & Hd' & HP' & Hu' & Hm').
        assert (Heks : eks = k :: expired_keys now (data c) ks).
        { subst eks. unfold expired_keys. rewrite filter_cons_True; [done|].
          unfold expired_at. rewrite Hk, Hexp. done. }
        assert (Heks4 : expired_keys now (data c4) ks = expired_keys now (data c) ks).
        { apply expired_keys_ext. subst c4. simpl. done. }
        rewrite Heks4 in *.
        exists d', u', m', P'. split; [|split; [|split; [|split]]].
        -- change (mbind ?f (Ok ?a)) with (f a). cbv beta. rewrite Hrun.
           rewrite Heks, expiry_calls_cons, Hk.
           subst c4 w1. simpl. f_equal. f_equal.
           destruct (assert_string k);
             apply expiry_calls_ext; intros j Hj;
             apply Hdel; by eapply expired_keys_subseteq.
        -- intros j. rewrite Hd', Heks. subst c4. simpl.
           destruct (decide (j = k)) as [->|Hne].
           ++ rewrite (decide_True (P:=k ∈ k :: _)) by apply list_elem_of_here.
              case_decide; [done|]. apply lookup_delete_eq.
           ++ rewrite lookup_delete_ne by done.
              apply decide_ext. rewrite elem_of_cons.
              split; [by right|by intros [?|?]].
        -- intros j. rewrite HP', Heks, elem_of_cons, elem_of_union,
             elem_of_singleton. tauto.
        -- intros n. rewrite Hu'. subst c4. simpl. rewrite !batch_insert.
           case_decide; [|by rewrite decide_False by done].
           rewrite decide_True by done. rewrite Heks, values_at_cons, Hk.
           rewrite <- app_assoc. simpl. f_equal. f_equal.
           apply values_at_ext. intros j Hj. apply Hdel.
           by eapply expired_keys_subseteq.
        -- intros n. rewrite Hm'. subst c4. simpl. rewrite !metric_insert. simpl.
           rewrite Heks. simpl.
           repeat case_decide; simplify_eq; try done.
           destruct (expired_keys now (data c) ks) eqn:He; [|done].
           unfold len. f_equal. f_equal. apply map_eq. intros j.
           rewrite Hd'. by rewrite decide_False by apply not_elem_of_nil.
      * rewrite (expire_body_fresh now k item _ Hexp).
        change (mbind ?f (Ok ?a)) with (f a). cbv beta.
        destruct (IH Hnd c P w Hsafe) as (d' & u' & m' & P' & Hrun & Hd' & HP' & Hu' & Hm').
        assert (Heks : eks = expired_keys now (data c) ks).
        { subst eks. unfold expired_keys. rewrite filter_cons_False; [done|].
          unfold expired_at. rewrite Hk, Hexp. by intros []. }
        rewrite Heks. by exists d', u', m', P'.
    + destruct (IH Hnd c P w Hsafe) as (d' & u' & m' & P' & Hrun & Hd' & HP' & Hu' & Hm').
      assert (Heks : eks = expired_keys now (data c) ks).
      { subst eks. unfold expired_keys. rewrite filter_cons_False; [done|].
        unfold expired_at. rewrite Hk. by intros []. }
      rewrite Heks. by exists d', u', m', P'.
Qed.


(** An expired entry under a key that is not a string stops the pass as soon
    as there is a callback to hand it to. *)
Lemma expire_range_panics (now : key -> Z) (ks : list key) :
  forall c (P : gset key) w,
  expiryMiddlewares c <> [] ->
  (exists k item, k ∈ ks /\ data c !! k = Some item /\
                  is_expired (now k) item = true /\ assert_string k = None) ->
  is_ok (range locked_data (expire_body now) ks (c, P, w)) = false.
Proof.
  induction ks as [|k0 ks IH]; intros c P w Hms (k & item & Hin & Hk & Hexp & Hstr).
  { by apply elem_of_nil in Hin. }
  rewrite range_cons. unfold locked_data at 1. cbn [fst].
  destruct (data c !! k0) as [item0|] eqn:Hk0.
  - destruct (is_expired (now k0) item0) eqn:Hexp0.
    + destruct (assert_string k0) as [s|] eqn:Hs0.
      * rewrite (expire_body_expired now k0 item0 c P w _ Hexp0
                   (call_expiry_string _ k0 s item0 w Hs0)).
        change (mbind ?f (Ok ?a)) with (f a). cbv beta.
        apply IH; [done|]. exists k, item.
        assert (k <> k0) by (intros ->; congruence).
        apply elem_of_cons in Hin as [?|Hin]; [done|].
        repeat split; try done. simpl. by rewrite lookup_delete_ne.
      * unfold expire_body. rewrite Hexp0. simpl.
        by rewrite call_expiry_not_string.
    + rewrite (expire_body_fresh now k0 item0 _ Hexp0).
      change (mbind ?f (Ok ?a)) with (f a). cbv beta.
      apply IH; [done|]. exists k, item.
      apply elem_of_cons in Hin as [->|Hin]; [congruence|done].
  - apply IH; [done|]. exists k, item.
    apply elem_of_cons in Hin as [->|Hin]; [congruence|done].
Qed.

(** *** The created/updated pass, over any list of keys *)

Lemma diff_range_spec (f : T -> T -> bool) (ks : list key) :
  forall c, compare_ready f c (data c) ->
  exists u',
    range data diff_body ks c = Ok (set_updates u' c) /\
    forall n, batch u' n =
      if decide (n = "created")
      then batch (updates c) "created" ++
           values_at (data c) (created_keys (data c) (prev c) ks)
      else if decide (n = "updated")
      then batch (updates c) "updated" ++
           values_at (data c) (updated_keys f (data c) (prev c) ks)
      else batch (updates c) n.
Proof.
  induction ks as [|k ks IH]; intros c Hready.
  - exists (updates c). split; [by destruct c|].
    intros n. unfold created_keys, updated_keys. rewrite !filter_nil.
    repeat case_decide; subst; unfold values_at; simpl; by rewrite ?app_nil_r.
  - rewrite range_cons. unfold created_keys, updated_keys.
    rewrite !filter_keys_cons. unfold created_at at 1, updated_at at 1.
    destruct (data c !! k) as [item|] eqn:Hk; [|by apply IH].
    unfold diff_body.
    destruct (prev c !! k) as [prevItem|] eqn:Hp.
    + assert (Hf : compareFunc c = Some f).
      { destruct Hready as [?|[_ Hno]]; [done|].
        rewrite Hno in Hp by (by rewrite Hk). done. }
      rewrite Hf.
      destruct (f (Value item) (Value prevItem)) eqn:Hcmp; simpl.
      * by apply IH.
      * destruct (IH (append_update "updated" (Value item) c)) as (u' & Hrun & Hu').
        { done. }
        exists u'. split; [done|]. intros n. rewrite Hu'. simpl.
        rewrite !batch_insert.
        repeat case_decide; simplify_eq; try done.
        rewrite values_at_cons, Hk, <- app_assoc. done.
    + simpl.
      destruct (IH (append_update "created" (Value item) c)) as (u' & Hrun & Hu').
      { done. }
      exists u'. split; [done|]. intros n. rewrite Hu'. simpl.
      rewrite !batch_insert.
      repeat case_decide; simplify_eq; try done.
      rewrite values_at_cons, Hk, <- app_assoc. done.
Qed.

(** With no predicate configured, the pass panics at the first key it meets
    that is both in the store and in the snapshot. *)
Lemma diff_range_nil_func (ks : list key) :
  forall c, compareFunc c = None ->
  (exists k, k ∈ ks /\ is_Some (data c !! k) /\ is_Some (prev c !! k)) ->
  range data diff_body ks c = Panic PanicNilFunc.
Proof.
  induction ks as [|k0 ks IH]; intros c Hnil (k & Hin & Hd & Hp).
  { by apply elem_of_nil in Hin. }
  rewrite range_cons.
  destruct (data c !! k0) as [item0|] eqn:Hk0.
  - unfold diff_body. destruct (prev c !! k0) as [prevItem|] eqn:Hp0.
    + by rewrite Hnil.
    + simpl. apply IH; [done|]. exists k.
      apply elem_of_cons in Hin as [->|Hin]; [|done].
      rewrite Hp0 in Hp. by destruct Hp.
  - apply IH; [done|]. exists k.
    apply elem_of_cons in Hin as [->|Hin]; [|done].
    rewrite Hk0 in Hd. by destruct Hd.
Qed.

(** *** The deleted pass, over any list of keys *)

Lemma deleted_range_spec (P : gset key) (ks : list key) :
  forall c,
  exists u',
    range prev (deleted_body P) ks c = Ok (set_updates u' c) /\
    forall n, batch u' n =
      if decide (n = "deleted")
      then batch (updates c) "deleted" ++
           values_at (prev c) (gone_keys (data c) P ks)
      else batch (updates c) n.
Proof.
  induction ks as [|k ks IH]; intros c.
  - exists (updates c). split; [by destruct c|].
    intros n. unfold gone_keys. rewrite filter_nil.
    case_decide; subst; unfold values_at; simpl; by rewrite ?app_nil_r.
  - rewrite range_cons. unfold gone_keys.
    rewrite filter_keys_cons. unfold gone_at at 1.
    destruct (prev c !! k) as [prevValue|] eqn:Hp.
    + unfold deleted_body.
      destruct (data c !! k) as [item|] eqn:Hk; [by apply IH|].
      destruct (decide (k ∈ P)) as [HP|HP].
      * rewrite bool_decide_eq_false_2 by tauto. by apply IH.
      * rewrite bool_decide_eq_true_2 by done. simpl.
        destruct (IH (append_update "deleted" (Value prevValue) c)) as (u' & Hrun & Hu').
        exists u'. split; [done|]. intros n. rewrite Hu'. simpl.
        rewrite !batch_insert.
        repeat case_decide; simplify_eq; try done.
        rewrite values_at_cons, Hp, <- app_assoc. done.
    + destruct (IH c) as (u' & Hrun & Hu').
      exists u'. split; [done|]. intros n. rewrite Hu'.
      case_decide; [|done]. f_equal.
      destruct (data c !! k); [done|].
      case_bool_decide; [|done]. simpl. by rewrite values_at_cons, Hp.
Qed.

(** *** The copy into the snapshot, over any list of keys *)

Lemma copy_range_spec (ks : list key) :
  forall c,
  exists p',
    range data copy_body ks c = Ok (set_prev p' c) /\
    forall j, p' !! j =
      if decide (j ∈ ks /\ is_Some (data c !! j)) then data c !! j else prev c !! j.
Proof.
  induction ks as [|k ks IH]; intros c.
  - exists (prev c). split; [by destruct c|].
    intros j. rewrite decide_False; [done|]. rewrite elem_of_nil. tauto.
  - rewrite range_cons. destruct (data c !! k) as [item|] eqn:Hk.
    + unfold copy_body. simpl.
      destruct (IH (set_prev (<[k:=item]> (prev c)) c)) as (p' & Hrun & Hp').
      exists p'. split; [done|]. intros j. rewrite Hp'. simpl.
      destruct (decide (j = k)) as [->|Hne].
      * rewrite lookup_insert_eq, Hk.
        rewrite (decide_True (P:=k ∈ k :: ks /\ _)); [by case_decide|].
        split; [apply list_elem_of_here|done].
      * rewrite lookup_insert_ne by done.
        apply decide_ext. rewrite elem_of_cons. intuition congruence.
    + destruct (IH c) as (p' & Hrun & Hp').
      exists p'. split; [done|]. intros j. rewrite Hp'.
      destruct (decide (j = k)) as [->|Hne].
      * rewrite Hk. rewrite !decide_False; [done| |]; intros [_ []]; done.
      * apply decide_ext. rewrite elem_of_cons. intuition congruence.
Qed.


(** *** The passes of a tick, on the orders the tick is given *)

Lemma range_ok_NoDup (o : @RangeOrder T) (m : gmap key (@Item T)) :
  range_ok o -> NoDup (o m).
Proof. intros Ho. rewrite (Ho m). apply NoDup_fst_map_to_list. Qed.

Lemma range_ok_elem (o : @RangeOrder T) (m : gmap key (@Item T)) k :
  range_ok o -> k ∈ o m <-> is_Some (m !! k).
Proof.
  intros Ho. rewrite (Ho m), list_elem_of_fmap. split.
  - intros ([j item] & -> & Hin). apply elem_of_map_to_list in Hin. by exists item.
  - intros [item Hk]. exists (k, item). split; [done|].
    by apply elem_of_map_to_list.
Qed.

Lemma lookup_unexpired (now : key -> Z) (d : gmap key (@Item T)) k :
  unexpired now d !! k =
  match d !! k with
  | Some item => if is_expired (now k) item then None else Some item
  | None => None
  end.
Proof.
  unfold unexpired. rewrite map_lookup_filter.
  destruct (d !! k) as [item|]; simpl; [|done].
  destruct (is_expired (now k) item); by case_guard.
Qed.

Lemma elem_of_expired_keys (now : key -> Z) (d : gmap key (@Item T))
    (o : @RangeOrder T) k :
  range_ok o ->
  k ∈ expired_keys now d (o d) <->
  exists item, d !! k = Some item /\ is_expired (now k) item = true.
Proof.
  intros Ho. unfold expired_keys. rewrite list_elem_of_filter, range_ok_elem by done.
  unfold expired_at. split.
  - intros [Hexp [item Hk]]. rewrite Hk in Hexp. exists item. split; [done|].
    by destruct (is_expired (now k) item).
  - intros (item & Hk & Hexp). rewrite Hk, Hexp. split; [done|by exists item].
Qed.

(** The expire pass leaves exactly the unexpired entries. *)
Lemma expire_pass_spec (e : @TickEnv T) c w :
  range_ok (ord_expire e) -> expiry_keys_ok (now_at e) c ->
  let eks := expired_keys (now_at e) (data c) (ord_expire e (data c)) in
  let d' := unexpired (now_at e) (data c) in
  exists u' m' P',
    expire_pass e (c, ∅, w) =
      Ok (set_Metrics m' (set_updates u' (set_data d' c)), P',
          expiry_calls (expiryMiddlewares c) (data c) eks w) /\
    (forall j, j ∈ P' <-> j ∈ eks) /\
    (forall n, batch u' n =
               if decide (n = "deleted")
               then batch (updates c) "deleted" ++ values_at (data c) eks
               else batch (updates c) n) /\
    (forall n, metric m' n =
               if decide (n = "memoryUsageBytes")
               then fold_left (fun acc _ => GoInt.sub acc size_estimate) eks
                      (metric (Metrics c) "memoryUsageBytes")
               else if decide (n = "items")
               then match eks with
                    | [] => metric (Metrics c) "items"
                    | _ :: _ => len d'
                    end
               else metric (Metrics c) n).
Proof.
  intros Ho Hsafe eks d'.
  destruct (expire_range_spec (now_at e) (ord_expire e (data c))
              (range_ok_NoDup _ _ Ho) c ∅ w Hsafe)
    as (d1 & u' & m' & P' & Hrun & Hd1 & HP' & Hu' & Hm').
  assert (d1 = d') as ->.
  { apply map_eq. intros j. rewrite Hd1. subst d'. rewrite lookup_unexpired.
    case_decide as Hj.
    - apply elem_of_expired_keys in Hj as (item & -> & ->); done.
    - destruct (data c !! j) as [item|] eqn:Hk; [|done].
      destruct (is_expired (now_at e j) item) eqn:Hexp; [|done].
      destruct Hj. apply elem_of_expired_keys; [done|]. by exists item. }
  exists u', m', P'. split; [done|]. split; [|done].
  intros j. rewrite HP', elem_of_empty. tauto.
Qed.


Lemma gone_keys_marks (d : gmap key (@Item T)) (P1 P2 : gset key) (ks : list key) :
  (forall k, k ∈ P1 <-> k ∈ P2) -> gone_keys d P1 ks = gone_keys d P2 ks.
Proof.
  intros HP. apply filter_keys_ext. intros k _. unfold gone_at.
  destruct (d !! k); [done|]. apply bool_decide_ext. by rewrite HP.
Qed.

Lemma copy_pass_spec (e : @TickEnv T) c :
  range_ok (ord_copy e) -> copy_pass e c = Ok (set_prev (data c) c).
Proof.
  intros Ho. unfold copy_pass.
  destruct (copy_range_spec (ord_copy e (data c)) (set_prev ∅ c)) as (p' & Hrun & Hp').
  rewrite Hrun. simpl in Hp'. assert (p' = data c) as ->; [|done].
  apply map_eq. intros j. rewrite Hp'. case_decide as Hj; [done|].
  rewrite lookup_empty. symmetry. apply eq_None_not_Some. intros Hsome.
  apply Hj. split; [|done]. by apply range_ok_elem.
Qed.

(** The locked section of a tick, end to end. *)
Lemma tick_locked_spec (e : @TickEnv T) c w (f : T -> T -> bool) :
  env_ok e -> expiry_keys_ok (now_at e) c ->
  compare_ready f c (unexpired (now_at e) (data c)) ->
  let d1 := unexpired (now_at e) (data c) in
  let eks := expired_keys (now_at e) (data c) (ord_expire e (data c)) in
  let cks := created_keys d1 (prev c) (ord_diff e d1) in
  let uks := updated_keys f d1 (prev c) (ord_diff e d1) in
  let gks := gone_keys d1 (list_to_set eks) (ord_deleted e (prev c)) in
  exists u' m',
    tick_locked e c w =
      Ok (set_prev d1 (set_Metrics m' (set_updates u' (set_data d1 c))),
          expiry_calls (expiryMiddlewares c) (data c) eks w) /\
    batch u' "created" = batch (updates c) "created" ++ values_at d1 cks /\
    batch u' "updated" = batch (updates c) "updated" ++ values_at d1 uks /\
    batch u' "deleted" =
      batch (updates c) "deleted" ++ values_at (data c) eks ++ values_at (prev c) gks /\
    (forall n, metric m' n =
               if decide (n = "memoryUsageBytes")
               then fold_left (fun acc _ => GoInt.sub acc size_estimate) eks
                      (metric (Metrics c) "memoryUsageBytes")
               else if decide (n = "items")
               then match eks with
                    | [] => metric (Metrics c) "items"
                    | _ :: _ => len d1
                    end
               else metric (Metrics c) n).
Proof.
  intros (Hoe & Hod & Hog & Hoc) Hsafe Hready d1 eks cks uks gks.
  destruct (expire_pass_spec e c w Hoe Hsafe) as (u1 & m' & P' & Hrun1 & HP' & Hu1 & Hm').
  fold eks d1 in Hrun1, HP', Hu1, Hm'.
  unfold tick_locked. rewrite Hrun1.
  change (mbind ?g (Ok ?a)) with (g a). cbv beta iota.
  set (c1 := set_Metrics m' (set_updates u1 (set_data d1 c))).
  unfold diff_pass.
  destruct (diff_range_spec f (ord_diff e (data c1)) c1 Hready) as (u2 & Hrun2 & Hu2).
  rewrite Hrun2. change (mbind ?g (Ok ?a)) with (g a). cbv beta.
  unfold deleted_pass.
  destruct (deleted_range_spec P' (ord_deleted e (prev (set_updates u2 c1)))
              (set_updates u2 c1)) as (u3 & Hrun3 & Hu3).
  rewrite Hrun3. change (mbind ?g (Ok ?a)) with (g a). cbv beta.
  rewrite copy_pass_spec by done.
  change (mbind ?g (Ok ?a)) with (g a). cbv beta.
  exists u3, m'. split; [done|].
  simpl in Hu2, Hu3.
  rewrite (gone_keys_marks d1 P' (list_to_set eks)) in Hu3
    by (intros k; by rewrite HP', elem_of_list_to_set).
  split; [|split; [|split]].
  - rewrite Hu3, decide_False by done. rewrite Hu2, decide_True by done.
    by rewrite Hu1, decide_False by done.
  - rewrite Hu3, decide_False by done. rewrite Hu2, decide_False by done.
    rewrite decide_True by done. by rewrite Hu1, decide_False by done.
  - rewrite Hu3, decide_True by done. rewrite Hu2, !decide_False by done.
    rewrite Hu1, decide_True by done. by rewrite <- app_assoc.
  - done.
Qed.


(** ** Which keys a tick reports *)

Lemma elem_of_created_keys (d p : gmap key (@Item T)) (o : @RangeOrder T) k :
  range_ok o ->
  k ∈ created_keys d p (o d) <-> is_Some (d !! k) /\ p !! k = None.
Proof.
  intros Ho. unfold created_keys. rewrite list_elem_of_filter, range_ok_elem by done.
  unfold created_at. split.
  - intros [Hc [item Hk]]. rewrite Hk in Hc. split; [by exists item|].
    by destruct (p !! k).
  - intros [[item Hk] Hp]. rewrite Hk, Hp. split; [done|by exists item].
Qed.

Lemma elem_of_updated_keys (f : T -> T -> bool) (d p : gmap key (@Item T))
    (o : @RangeOrder T) k :
  range_ok o ->
  k ∈ updated_keys f d p (o d) <->
  exists item prevItem, d !! k = Some item /\ p !! k = Some prevItem /\
                        f (Value item) (Value prevItem) = false.
Proof.
  intros Ho. unfold updated_keys. rewrite list_elem_of_filter, range_ok_elem by done.
  unfold updated_at. split.
  - intros [Hu [item Hk]]. rewrite Hk in Hu.
    destruct (p !! k) as [prevItem|]; [|done].
    exists item, prevItem. repeat split; try done.
    by destruct (f (Value item) (Value prevItem)).
  - intros (item & prevItem & Hk & Hp & Hf). rewrite Hk, Hp, Hf.
    split; [done|by exists item].
Qed.

Lemma elem_of_gone_keys (d p : gmap key (@Item T)) (P : gset key)
    (o : @RangeOrder T) k :
  range_ok o ->
  k ∈ gone_keys d P (o p) <-> is_Some (p !! k) /\ d !! k = None /\ k ∉ P.
Proof.
  intros Ho. unfold gone_keys. rewrite list_elem_of_filter, range_ok_elem by done.
  unfold gone_at. split.
  - intros [Hg Hp]. destruct (d !! k); [done|].
    apply bool_decide_unpack in Hg. done.
  - intros (Hp & -> & HP). split; [|done]. by apply bool_decide_pack.
Qed.

Lemma Set_frame k (value : T) (expires : list Z) c :
  prev (Set_ k value expires c) = prev c /\
  updates (Set_ k value expires c) = updates c /\
  compareFunc (Set_ k value expires c) = compareFunc c /\
  expiryMiddlewares (Set_ k value expires c) = expiryMiddlewares c.
Proof. unfold Set_. by destruct (data c !! k). Qed.

Lemma set_all_frame (calls : list (key * T * list Z)) c :
  prev (set_all calls c) = prev c /\
  updates (set_all calls c) = updates c /\
  compareFunc (set_all calls c) = compareFunc c /\
  expiryMiddlewares (set_all calls c) = expiryMiddlewares c.
Proof.
  revert c. induction calls as [|call calls IH]; intros c; [done|].
  unfold set_all in *. simpl. destruct (IH (Set_ call.1.1 call.1.2 call.2 c))
    as (-> & -> & -> & ->). apply Set_frame.
Qed.

(** C1: after any run of Set calls, the locked section of the next tick puts
    into the created batch the value of every key the store still holds after
    the expire pass and the snapshot lacks, into the updated batch the value
    of every such key the snapshot holds with a value the equality predicate
    tells apart, and nothing for a key held with an equal value.  Each batch
    gains one value per selected key, and the selected keys are pairwise
    distinct across both batches: a key yields at most one event per tick,
    created or updated and never both, however often it was set. *)
Theorem created_updated_once_per_key (e : @TickEnv T)
    (calls : list (key * T * list Z)) (c0 : @Cache T W) (w : W)
    (f : T -> T -> bool) :
  let c := set_all calls c0 in
  let d1 := unexpired (now_at e) (data c) in
  let cks := created_keys d1 (prev c0) (ord_diff e d1) in
  let uks := updated_keys f d1 (prev c0) (ord_diff e d1) in
  env_ok e -> expiry_keys_ok (now_at e) c -> compareFunc c0 = Some f ->
  exists c' w',
    tick_locked e c w = Ok (c', w') /\
    data c' = d1 /\
    batch (updates c') "created" = batch (updates c0) "created" ++ values_at d1 cks /\
    batch (updates c') "updated" = batch (updates c0) "updated" ++ values_at d1 uks /\
    length (values_at d1 cks) = length cks /\
    length (values_at d1 uks) = length uks /\
    (forall k, k ∈ cks <-> is_Some (d1 !! k) /\ prev c0 !! k = None) /\
    (forall k, k ∈ uks <->
       exists item prevItem, d1 !! k = Some item /\ prev c0 !! k = Some prevItem /\
                             f (Value item) (Value prevItem) = false) /\
    (forall k item prevItem,
       d1 !! k = Some item -> prev c0 !! k = Some prevItem ->
       f (Value item) (Value prevItem) = true -> k ∉ cks ++ uks) /\
    NoDup (cks ++ uks).
Proof.
  intros c d1 cks uks Henv Hsafe Hf.
  destruct (set_all_frame calls c0) as (Hprev & Hupd & Hcmp & _).
  assert (Hready : compare_ready f c (unexpired (now_at e) (data c))).
  { left. subst c. by rewrite Hcmp. }
  destruct (tick_locked_spec e c w f Henv Hsafe Hready)
    as (u' & m' & Hrun & Hcr & Hup & _ & _).
  fold c in Hprev, Hupd. rewrite Hprev, Hupd in Hcr, Hup. fold d1 cks uks in Hrun, Hcr, Hup.
  destruct Henv as (_ & Hod & _ & _).
  assert (Hc : forall k, k ∈ cks <-> is_Some (d1 !! k) /\ prev c0 !! k = None).
  { intros k. by apply elem_of_created_keys. }
  assert (Hu : forall k, k ∈ uks <->
             exists item prevItem, d1 !! k = Some item /\ prev c0 !! k = Some prevItem /\
                                   f (Value item) (Value prevItem) = false).
  { intros k. by apply elem_of_updated_keys. }
  eexists _, _. split; [exact Hrun|]. simpl.
  split; [done|]. split; [done|]. split; [done|].
  split. { apply length_values_at. intros k Hk. by apply Hc in Hk as [? _]. }
  split. { apply length_values_at. intros k Hk.
           apply Hu in Hk as (item & _ & -> & _). by exists item. }
  split; [done|]. split; [done|].
  split.
  { intros k item prevItem Hk Hp Heq. rewrite elem_of_app, Hc, Hu.
    intros [[_ Hnone]|(item' & prevItem' & Hk' & Hp' & Hne)]; congruence. }
  apply NoDup_app. split; [|split].
  - apply NoDup_filter. by apply range_ok_NoDup.
  - intros k Hk1 Hk2. apply Hc in Hk1 as [_ Hnone].
    apply Hu in Hk2 as (_ & prevItem & _ & Hsome & _). congruence.
  - apply NoDup_filter. by apply range_ok_NoDup.
Qed.


Lemma is_expired_spec (now : Z) item :
  is_expired now item = true <-> Expires item <> 0 /\ Expires item < now.
Proof.
  unfold is_expired, GoTime.IsZero, GoTime.Before.
  rewrite andb_true_iff, negb_true_iff, Z.eqb_neq, Z.ltb_lt. done.
Qed.

(** C2: in the locked section of a tick, the store entries whose expiry is
    non-zero and before the reading of the clock are exactly the ones removed;
    for each of them, in the order met, the value joins the deleted batch,
    every expiry callback runs once in registration order on its key and item,
    one size estimate comes off memoryUsageBytes and items becomes the new
    entry count.  The deleted pass then adds the snapshot value of exactly the
    snapshot keys that the store lacks and the expire pass did not mark, which
    are the snapshot keys the store lacked before the tick.  The deleted batch
    gains one value per such key, and no key is counted twice. *)
Theorem deleted_once_per_key (e : @TickEnv T) (c : @Cache T W) (w : W)
    (f : T -> T -> bool) :
  let d1 := unexpired (now_at e) (data c) in
  let eks := expired_keys (now_at e) (data c) (ord_expire e (data c)) in
  let gks := gone_keys d1 (list_to_set eks) (ord_deleted e (prev c)) in
  env_ok e -> expiry_keys_ok (now_at e) c -> compare_ready f c d1 ->
  exists c' w',
    tick_locked e c w = Ok (c', w') /\
    (forall k, k ∈ eks <->
       exists item, data c !! k = Some item /\
                    Expires item <> 0 /\ Expires item < now_at e k) /\
    data c' = d1 /\
    (forall k, k ∈ eks -> data c' !! k = None) /\
    w' = expiry_calls (expiryMiddlewares c) (data c) eks w /\
    metric (Metrics c') "memoryUsageBytes" =
      fold_left (fun acc _ => GoInt.sub acc size_estimate) eks
        (metric (Metrics c) "memoryUsageBytes") /\
    metric (Metrics c') "items" =
      match eks with
      | [] => metric (Metrics c) "items"
      | _ :: _ => len (data c')
      end /\
    (forall k, k ∈ gks <-> is_Some (prev c !! k) /\ data c' !! k = None /\ k ∉ eks) /\
    (forall k, k ∈ gks <-> is_Some (prev c !! k) /\ data c !! k = None) /\
    batch (updates c') "deleted" =
      batch (updates c) "deleted" ++ values_at (data c) eks ++ values_at (prev c) gks /\
    length (values_at (data c) eks) = length eks /\
    length (values_at (prev c) gks) = length gks /\
    NoDup (eks ++ gks).
Proof.
  intros d1 eks gks Henv Hsafe Hready.
  destruct (tick_locked_spec e c w f Henv Hsafe Hready)
    as (u' & m' & Hrun & _ & _ & Hdel & Hm').
  fold d1 eks gks in Hrun, Hdel, Hm'.
  destruct Henv as (Hoe & _ & Hog & _).
  assert (He : forall k, k ∈ eks <->
             exists item, data c !! k = Some item /\
                          Expires item <> 0 /\ Expires item < now_at e k).
  { intros k. subst eks. rewrite elem_of_expired_keys by done.
    by setoid_rewrite is_expired_spec. }
  assert (Hg : forall k, k ∈ gks <->
             is_Some (prev c !! k) /\ d1 !! k = None /\ k ∉ eks).
  { intros k. subst gks. rewrite elem_of_gone_keys by done.
    by rewrite elem_of_list_to_set. }
  assert (Hd1 : forall k, k ∈ eks -> d1 !! k = None).
  { intros k Hk. subst d1 eks. rewrite lookup_unexpired.
    apply elem_of_expired_keys in Hk as (item & -> & ->); done. }
  eexists _, _. split; [exact Hrun|]. simpl.
  split; [done|]. split; [done|]. split; [done|]. split; [done|].
  split. { by rewrite Hm', decide_True. }
  split. { rewrite Hm', decide_False by done. by rewrite decide_True. }
  split; [done|].
  split.
  { intros k. rewrite Hg. subst d1. rewrite lookup_unexpired. split.
    - intros (Hp & Hnone & Hnot). split; [done|].
      destruct (data c !! k) as [item|] eqn:Hk; [|done].
      destruct (is_expired (now_at e k) item) eqn:Hexp; [|done].
      destruct Hnot. subst eks. apply elem_of_expired_keys; [done|]. by exists item.
    - intros (Hp & Hk). rewrite Hk. split; [done|]. split; [done|].
      intros Hin. subst eks. apply elem_of_expired_keys in Hin as (item & ? & _); [|done].
      congruence. }
  split; [done|].
  split. { apply length_values_at. intros k Hk. apply He in Hk as (item & -> & _).
           by exists item. }
  split. { apply length_values_at. intros k Hk. by apply Hg in Hk as (? & _). }
  apply NoDup_app. split; [|split].
  - apply NoDup_filter. by apply range_ok_NoDup.
  - intros k Hk1 Hk2. by apply Hg in Hk2 as (_ & _ & ?).
  - apply NoDup_filter. by apply range_ok_NoDup.
Qed.


(** ** The counters *)

Import GoIntFacts.

Lemma store_bytes_wrap (d : gmap key (@Item T)) :
  store_bytes d =
  GoInt.wrap ((sizeof_Item + sizeof_Value + sizeof_Expires) * len d).
Proof.
  unfold store_bytes, len. rewrite <- length_map_to_list.
  induction (map_to_list d) as [|kv l IH]; simpl length; simpl foldr.
  - by rewrite Z.mul_0_r.
  - rewrite IH. unfold item_size, GoInt.add.
    rewrite !wrap_add_l, wrap_add_r. f_equal. lia.
Qed.

Lemma store_bytes_exact_eq (d : gmap key (@Item T)) :
  store_bytes_exact d = size_estimate * len d.
Proof.
  unfold store_bytes_exact, len. rewrite <- length_map_to_list.
  induction (map_to_list d) as [|kv l IH]; simpl length; simpl foldr; [lia|].
  rewrite IH. unfold item_size, size_estimate. lia.
Qed.

(** Where the exact sum fits an [int], the wrapped sum is the exact sum. *)
Lemma store_bytes_no_overflow (d : gmap key (@Item T)) :
  GoInt.in_range (store_bytes_exact d) -> store_bytes d = store_bytes_exact d.
Proof.
  intros Hr. rewrite <- (wrap_id _ Hr), store_bytes_wrap, store_bytes_exact_eq.
  unfold size_estimate, GoInt.add. rewrite wrap_add_l.
  destruct (wrap_decomp (sizeof_Item + sizeof_Value + sizeof_Expires)) as [q ->].
  replace ((sizeof_Item + sizeof_Value + sizeof_Expires + q * 2 ^ 64) * len d)
    with ((sizeof_Item + sizeof_Value + sizeof_Expires) * len d
          + (q * len d) * 2 ^ 64) by ring.
  by rewrite wrap_shift.
Qed.

Lemma store_bytes_insert_new (d : gmap key (@Item T)) k item :
  d !! k = None ->
  GoInt.add (store_bytes d) (item_size item) = store_bytes (<[k:=item]> d).
Proof.
  intros Hk. rewrite !store_bytes_wrap. unfold len.
  rewrite map_size_insert_None by done. unfold item_size, GoInt.add.
  rewrite !wrap_add_l, wrap_add_r. f_equal. lia.
Qed.

Lemma store_bytes_delete (d : gmap key (@Item T)) k item :
  d !! k = Some item ->
  GoInt.sub (store_bytes d) (item_size item) = store_bytes (delete k d).
Proof.
  intros Hk. rewrite !store_bytes_wrap. unfold len.
  rewrite map_size_delete_Some by done.
  assert (size d <> 0%nat) by (apply (map_size_ne_0_lookup_2 d k); by exists item).
  unfold item_size, GoInt.add, GoInt.sub.
  rewrite !wrap_add_l, wrap_sub_l, wrap_sub_r. f_equal.
  replace (Z.of_nat (pred (size d))) with (Z.of_nat (size d) - 1) by lia. ring.
Qed.

Lemma store_bytes_insert_old (d : gmap key (@Item T)) k old item :
  d !! k = Some old ->
  GoInt.add (GoInt.sub (store_bytes d) (item_size old)) (item_size item) =
  store_bytes (<[k:=item]> d).
Proof.
  intros Hk. rewrite (store_bytes_delete d k old Hk).
  rewrite <- (insert_delete_eq d k item).
  apply store_bytes_insert_new, lookup_delete_eq.
Qed.

Lemma Set_consistent k (value : T) (expires : list Z) c :
  metrics_consistent c -> metrics_consistent (Set_ k value expires c).
Proof.
  intros [Hitems Hmem]. unfold metrics_consistent, Set_.
  destruct (data c !! k) as [old|] eqn:Hk; simpl; rewrite !metric_insert; simpl.
  - split; [done|]. rewrite Hmem. by apply store_bytes_insert_old.
  - split; [done|]. rewrite Hmem. by apply store_bytes_insert_new.
Qed.

Lemma Get_consistent k (now : Z) c :
  metrics_consistent c -> metrics_consistent (Get k now c).2.
Proof.
  intros [Hitems Hmem]. unfold metrics_consistent, Get.
  destruct (data c !! k) as [item|]; [destruct (_ && _)|]; simpl;
    by rewrite !metric_insert.
Qed.

Lemma Delete_consistent k c :
  metrics_consistent c -> metrics_consistent (Delete k c).
Proof.
  intros [Hitems Hmem]. unfold metrics_consistent, Delete.
  destruct (data c !! k) as [item|] eqn:Hk; [|done].
  simpl. rewrite !metric_insert. simpl.
  split; [done|]. rewrite Hmem. by apply store_bytes_delete.
Qed.

Lemma delete_all_fold (ks : list key) :
  forall c,
  exists d',
    fold_left (fun c' k =>
                 match data c' !! k with
                 | Some _ => set_data (delete k (data c')) c'
                 | None => c'
                 end) ks c = set_data d' c /\
    forall j, d' !! j = if decide (j ∈ ks) then None else data c !! j.
Proof.
  induction ks as [|k ks IH]; intros c.
  - exists (data c). split; [by destruct c|]. intros j.
    by rewrite decide_False by apply not_elem_of_nil.
  - simpl. destruct (data c !! k) as [item|] eqn:Hk.
    + destruct (IH (set_data (delete k (data c)) c)) as (d' & Hrun & Hd').
      exists d'. split; [done|]. intros j. rewrite Hd'. simpl.
      destruct (decide (j = k)) as [->|Hne].
      * rewrite lookup_delete_eq.
        rewrite (decide_True (P:=k ∈ k :: ks)) by apply list_elem_of_here.
        by case_decide.
      * rewrite lookup_delete_ne by done.
        apply decide_ext. rewrite elem_of_cons. intuition congruence.
    + destruct (IH c) as (d' & Hrun & Hd').
      exists d'. split; [done|]. intros j. rewrite Hd'.
      destruct (decide (j = k)) as [->|Hne].
      * rewrite (decide_True (P:=k ∈ k :: ks)) by apply list_elem_of_here.
        by case_decide.
      * apply decide_ext. rewrite elem_of_cons. intuition congruence.
Qed.

Lemma DeleteAll_spec (o : @RangeOrder T) c :
  range_ok o ->
  DeleteAll o c =
  store_metric "items" 0 (store_metric "memoryUsageBytes" 0 (set_data ∅ c)).
Proof.
  intros Ho. unfold DeleteAll.
  destruct (delete_all_fold (o (data c)) c) as (d' & -> & Hd').
  assert (d' = ∅) as ->; [|done].
  apply map_eq. intros j. rewrite Hd', lookup_empty.
  case_decide as Hj; [done|]. apply eq_None_not_Some. intros Hsome.
  apply Hj. by apply range_ok_elem.
Qed.

Lemma DeleteAll_consistent (o : @RangeOrder T) c :
  range_ok o -> metrics_consistent (DeleteAll o c).
Proof.
  intros Ho. rewrite DeleteAll_spec by done.
  unfold metrics_consistent. simpl. rewrite !metric_insert. simpl.
  unfold len, store_bytes. by rewrite map_size_empty, map_to_list_empty.
Qed.


Lemma expire_body_consistent (now : key -> Z) k item (s s' : @LockedState T W) :
  locked_data s !! k = Some item -> metrics_consistent s.1.1 ->
  expire_body now k item s = Ok s' -> metrics_consistent s'.1.1.
Proof.
  destruct s as [[c P] w]. unfold locked_data. simpl. intros Hk [Hitems Hmem].
  unfold expire_body. destruct (is_expired (now k) item); [|by intros [= <-]].
  destruct (call_expiry _ k item w) as [w1|p]; simpl; [|done].
  intros [= <-]. unfold metrics_consistent. simpl. rewrite !metric_insert. simpl.
  split; [done|]. rewrite Hmem. by apply store_bytes_delete.
Qed.

Lemma diff_body_store k item c c' :
  diff_body k item c = Ok c' -> data c' = data c /\ Metrics c' = Metrics c.
Proof.
  unfold diff_body. destruct (prev c !! k); [|by intros [= <-]].
  destruct (compareFunc c) as [f|]; [|done].
  destruct (negb _); by intros [= <-].
Qed.

Lemma deleted_body_store (P : gset key) k item c c' :
  deleted_body P k item c = Ok c' -> data c' = data c /\ Metrics c' = Metrics c.
Proof.
  unfold deleted_body. destruct (data c !! k); [by intros [= <-]|].
  case_decide; by intros [= <-].
Qed.

Lemma copy_body_store k item c c' :
  copy_body k item c = Ok c' -> data c' = data c /\ Metrics c' = Metrics c.
Proof. by intros [= <-]. Qed.

Lemma tick_locked_consistent (e : @TickEnv T) c w c' w' :
  metrics_consistent c -> tick_locked e c w = Ok (c', w') -> metrics_consistent c'.
Proof.
  intros Hc. unfold tick_locked.
  destruct (expire_pass e (c, ∅, w)) as [[[c1 P] w1]|p] eqn:H1; [|done].
  change (mbind ?g (Ok ?a)) with (g a). cbv beta iota.
  destruct (diff_pass e c1) as [c2|p] eqn:H2; [|done].
  change (mbind ?g (Ok ?a)) with (g a). cbv beta.
  destruct (deleted_pass e P c2) as [c3|p] eqn:H3; [|done].
  change (mbind ?g (Ok ?a)) with (g a). cbv beta.
  destruct (copy_pass e c3) as [c4|p] eqn:H4; [|done].
  change (mbind ?g (Ok ?a)) with (g a). cbv beta. intros [= <- <-].
  assert (Hc1 : metrics_consistent c1).
  { apply (range_preserves (fun s : @LockedState T W => metrics_consistent s.1.1)
             locked_data (expire_body (now_at e))
             (ord_expire e (locked_data (c, ∅, w)))
             (expire_body_consistent (now_at e)) (c, ∅, w) (c1, P, w1) Hc H1). }
  pose (same := fun (a b : @Cache T W) => data b = data a /\ Metrics b = Metrics a).
  assert (H12 : same c1 c2).
  { eapply (range_preserves (same c1) data diff_body); [|split; reflexivity|exact H2].
    intros k item s s' _ [Hd Hm] Hb. apply diff_body_store in Hb as [Hd' Hm'].
    split; congruence. }
  assert (H23 : same c2 c3).
  { eapply (range_preserves (same c2) prev (deleted_body P));
      [|split; reflexivity|exact H3].
    intros k item s s' _ [Hd Hm] Hb. apply deleted_body_store in Hb as [Hd' Hm'].
    split; congruence. }
  assert (H34 : same c3 c4).
  { refine (range_preserves (same c3) data copy_body (ord_copy e (data c3)) _
              (set_prev ∅ c3) c4 _ H4); [|split; reflexivity].
    intros k item s s' _ [Hd Hm] Hb. apply copy_body_store in Hb as [Hd' Hm'].
    split; congruence. }
  destruct H12 as [Hd2 Hm2], H23 as [Hd3 Hm3], H34 as [Hd4 Hm4].
  destruct Hc1 as [Hi1 Hb1].
  unfold metrics_consistent. rewrite Hd4, Hm4, Hd3, Hm3, Hd2, Hm2. done.
Qed.

Lemma tick_consistent (e : @TickEnv T) c w c' w' :
  metrics_consistent c -> tick e c w = Ok (c', w') -> metrics_consistent c'.
Proof.
  intros Hc. unfold tick.
  destruct (tick_locked e c _) as [[c1 w1]|p] eqn:H1; [|done].
  change (mbind ?g (Ok ?a)) with (g a). cbv beta iota zeta. intros [= <- <-].
  by apply (tick_locked_consistent e c _ c1 w1 Hc H1).
Qed.

Lemma step_consistent (o : @op T) (s s' : @Cache T W * W) :
  op_ok o -> metrics_consistent s.1 -> step o s = Ok s' -> metrics_consistent s'.1.
Proof.
  destruct s as [c w], s' as [c' w']. simpl. intros Hok Hc.
  destruct o; simpl; try (intros [= <- <-]).
  - by apply Set_consistent.
  - by apply Get_consistent.
  - done.
  - by apply Delete_consistent.
  - by apply DeleteAll_consistent.
  - by apply tick_consistent.
Qed.

Lemma run_consistent (ops : list (@op T)) :
  Forall op_ok ops ->
  forall (s s' : @Cache T W * W),
  metrics_consistent s.1 -> run ops s = Ok s' -> metrics_consistent s'.1.
Proof.
  induction 1 as [|o ops Ho Hops IH]; intros s s' Hs; simpl.
  - by intros [= <-].
  - destruct (step o s) as [s1|p] eqn:Hstep; [|done].
    change (mbind ?g (Ok ?a)) with (g a). cbv beta.
    apply IH. by eapply step_consistent.
Qed.


Lemma New_consistent : metrics_consistent (@New T W).
Proof. split; reflexivity. Qed.

(** ** Runs that do not panic *)

Lemma tick_total (e : @TickEnv T) c w (f : T -> T -> bool) :
  env_ok e -> expiry_keys_ok (now_at e) c ->
  compare_ready f c (unexpired (now_at e) (data c)) ->
  let d1 := unexpired (now_at e) (data c) in
  exists u' m' w',
    tick e c w = Ok (set_prev d1 (set_Metrics m' (set_updates u' (set_data d1 c))), w').
Proof.
  intros Henv Hsafe Hready d1.
  destruct (tick_locked_spec e c (call_ticks (beforeTickMiddleware c) w) f
              Henv Hsafe Hready) as (u' & m' & Hrun & _).
  unfold tick. rewrite Hrun.
  change (mbind ?g (Ok ?a)) with (g a). cbv beta iota zeta.
  by eexists _, _, _.
Qed.

Lemma data_Set k (value : T) (expires : list Z) c :
  data (Set_ k value expires c) =
  <[k := mkItem value match expires with e :: _ => e | [] => GoTime.zero end]> (data c).
Proof. unfold Set_. by destruct (data c !! k). Qed.

Lemma Get_frame k (now : Z) c :
  data (Get k now c).2 = data c /\ prev (Get k now c).2 = prev c /\
  compareFunc (Get k now c).2 = compareFunc c.
Proof. unfold Get. by destruct (data c !! k) as [item|]; [destruct (_ && _)|]. Qed.

Lemma Delete_frame k c :
  data (Delete k c) = delete k (data c) /\ prev (Delete k c) = prev c /\
  compareFunc (Delete k c) = compareFunc c.
Proof.
  unfold Delete. destruct (data c !! k) eqn:Hk; [done|].
  by rewrite delete_id.
Qed.

Lemma step_runnable (f : T -> T -> bool) (o : @op T) (s : @Cache T W * W) :
  op_ok o -> string_op o -> runnable f s ->
  exists s', step o s = Ok s' /\ runnable f s'.
Proof.
  destruct s as [c w]. unfold runnable. intros Hok Hstr [Hf Hkeys]. cbn [fst] in Hf, Hkeys.
  destruct o as [k v ex|k now|o now|k|o|e]; simpl in *.
  - eexists. split; [done|]. split; cbn [fst].
    + destruct (Set_frame k v ex c) as (_ & _ & -> & _). done.
    + rewrite data_Set. intros j. rewrite lookup_insert.
      case_decide; [by subst|apply Hkeys].
  - eexists. split; [done|]. destruct (Get_frame k now c) as (Hd & _ & Hc).
    split; cbn [fst]; [by rewrite Hc|by rewrite Hd].
  - by eexists.
  - eexists. split; [done|]. destruct (Delete_frame k c) as (Hd & _ & Hc).
    split; cbn [fst]; [by rewrite Hc|]. rewrite Hd. intros j [item Hj].
    apply lookup_delete_Some in Hj as [_ Hj]. apply Hkeys. by exists item.
  - eexists. split; [done|]. rewrite DeleteAll_spec by done. split; cbn [fst]; [done|]. simpl.
    intros j [item Hj]. by rewrite lookup_empty in Hj.
  - destruct (tick_total e c w f Hok) as (u' & m' & w' & Hrun).
    + right. intros k item Hk _. apply Hkeys. by exists item.
    + by left.
    + eexists. split; [exact Hrun|]. split; cbn [fst]; [done|]. simpl.
      intros j [item Hj]. rewrite lookup_unexpired in Hj.
      destruct (data c !! j) as [item'|] eqn:Hj'; [|done].
      apply Hkeys. by exists item'.
Qed.

Lemma run_runnable (f : T -> T -> bool) (ops : list (@op T)) :
  Forall op_ok ops -> Forall string_op ops ->
  forall s : @Cache T W * W, runnable f s -> is_ok (run ops s) = true.
Proof.
  induction 1 as [|o ops Ho Hops IH]; intros Hstr s Hs; [done|].
  apply Forall_cons in Hstr as [Hstr1 Hstr].
  destruct (step_runnable f o s Ho Hstr1 Hs) as (s' & Hstep & Hs').
  simpl. rewrite Hstep. by apply IH.
Qed.

(** C3: from a cache whose counters agree with its store, after any run of
    calls and ticks the counter items is the number of store entries and
    memoryUsageBytes is the sum, in int arithmetic, of the size estimates of
    the entries the store holds, which is their exact sum whenever that sum
    fits an int; a DeleteAll at that point empties the store and leaves both
    counters at exactly 0.  Such a run does not panic when the equality
    predicate is configured and every key ever set is a string. *)
Theorem metrics_track_store (ops : list (@op T)) (c0 : @Cache T W) (w : W) :
  metrics_consistent c0 -> Forall op_ok ops ->
  (forall c w',
     run ops (c0, w) = Ok (c, w') ->
     metric (Metrics c) "items" = len (data c) /\
     metric (Metrics c) "memoryUsageBytes" = store_bytes (data c) /\
     (GoInt.in_range (store_bytes_exact (data c)) ->
      metric (Metrics c) "memoryUsageBytes" = store_bytes_exact (data c)) /\
     (forall o, range_ok o ->
        data (DeleteAll o c) = ∅ /\
        metric (Metrics (DeleteAll o c)) "memoryUsageBytes" = 0 /\
        metric (Metrics (DeleteAll o c)) "items" = 0)) /\
  (forall f, compareFunc c0 = Some f -> string_keyed (data c0) ->
             Forall string_op ops -> is_ok (run ops (c0, w)) = true).
Proof.
  intros Hc0 Hops. split.
  - intros c w' Hrun.
    destruct (run_consistent ops Hops (c0, w) (c, w') Hc0 Hrun) as [Hi Hm].
    simpl in Hi, Hm. split; [done|]. split; [done|].
    split. { intros Hr. rewrite Hm. by apply store_bytes_no_overflow. }
    intros o Ho. rewrite DeleteAll_spec by done. simpl.
    by rewrite !metric_insert.
  - intros f Hf Hkeys Hstr. by apply (run_runnable f).
Qed.


(** ** The snapshot *)

Lemma DeleteAll_frame (o : @RangeOrder T) c :
  prev (DeleteAll o c) = prev c /\ compareFunc (DeleteAll o c) = compareFunc c.
Proof.
  unfold DeleteAll. by destruct (delete_all_fold (o (data c)) c) as (d' & -> & _).
Qed.

(** C7: whenever the locked section of a tick completes, the snapshot it
    leaves is the store it leaves, whatever the snapshot held before; it
    completes, with both equal to the unexpired part of the store, once the
    type assertion and the comparison can be reached safely.  Set, Get,
    GetAll, Delete and DeleteAll leave the snapshot as it was. *)
Theorem snapshot_replaced_only_by_tick (e : @TickEnv T) (c : @Cache T W) (w : W) :
  env_ok e ->
  (forall c' w', tick_locked e c w = Ok (c', w') -> prev c' = data c') /\
  (forall f, expiry_keys_ok (now_at e) c ->
             compare_ready f c (unexpired (now_at e) (data c)) ->
     exists c' w', tick_locked e c w = Ok (c', w') /\
                   prev c' = unexpired (now_at e) (data c) /\
                   data c' = unexpired (now_at e) (data c)) /\
  (forall k value expires, prev (Set_ k value expires c) = prev c) /\
  (forall k now, prev (Get k now c).2 = prev c) /\
  (forall k, prev (Delete k c) = prev c) /\
  (forall o, prev (DeleteAll o c) = prev c) /\
  (forall o now, step (OpGetAll o now) (c, w) = Ok (c, w)).
Proof.
  intros Henv. split; [|split; [|split; [|split; [|split; [|split]]]]].
  - intros c' w'. unfold tick_locked.
    destruct (expire_pass e (c, ∅, w)) as [[[c1 P] w1]|p]; [|done].
    change (mbind ?g (Ok ?a)) with (g a). cbv beta iota.
    destruct (diff_pass e c1) as [c2|p]; [|done].
    change (mbind ?g (Ok ?a)) with (g a). cbv beta.
    destruct (deleted_pass e P c2) as [c3|p]; [|done].
    change (mbind ?g (Ok ?a)) with (g a). cbv beta.
    rewrite copy_pass_spec by apply Henv.
    change (mbind ?g (Ok ?a)) with (g a). cbv beta. by intros [= <- <-].
  - intros f Hsafe Hready.
    destruct (tick_locked_spec e c w f Henv Hsafe Hready) as (u' & m' & Hrun & _).
    by eexists _, _.
  - intros k value expires. apply Set_frame.
  - intros k now. apply Get_frame.
  - intros k. apply Delete_frame.
  - intros o. apply DeleteAll_frame.
  - done.
Qed.

(** ** What is checked when, and what fails where *)

Lemma tick_locked_nil_func (e : @TickEnv T) c w :
  env_ok e -> expiry_keys_ok (now_at e) c -> compareFunc c = None ->
  (exists k, is_Some (unexpired (now_at e) (data c) !! k) /\ is_Some (prev c !! k)) ->
  tick_locked e c w = Panic PanicNilFunc.
Proof.
  intros (Hoe & Hod & _ & _) Hsafe Hnil (k & Hd & Hp).
  destruct (expire_pass_spec e c w Hoe Hsafe) as (u1 & m' & P' & Hrun1 & _).
  unfold tick_locked. rewrite Hrun1.
  change (mbind ?g (Ok ?a)) with (g a). cbv beta iota.
  unfold diff_pass. rewrite diff_range_nil_func; [done|done|].
  exists k. split; [|done]. by apply range_ok_elem.
Qed.

(** C5, as the code has it: Maintain rejects a non-positive interval when it
    starts, before any tick, and with a positive interval it runs its
    schedule.  A missing equality predicate is not looked at when Maintain
    starts: a tick completes without it as long as no key of the store left by
    the expire pass is in the snapshot, and the first tick that finds such a
    key fails inside its comparison step. *)
Theorem Maintain_checks_interval_only (sched : list (@op T)) (c : @Cache T W) (w : W) :
  (interval c <= 0 -> Maintain sched c w = Panic PanicNonPositiveInterval) /\
  (0 < interval c -> Maintain sched c w = run sched (c, w)) /\
  (forall e, compareFunc c = None -> env_ok e -> expiry_keys_ok (now_at e) c ->
     ((forall k, is_Some (unexpired (now_at e) (data c) !! k) -> prev c !! k = None) ->
      is_ok (tick e c w) = true) /\
     ((exists k, is_Some (unexpired (now_at e) (data c) !! k) /\ is_Some (prev c !! k)) ->
      tick e c w = Panic PanicNilFunc)).
Proof.
  split; [|split].
  - intros Hi. unfold Maintain, NewTicker.
    by rewrite (proj2 (Z.leb_le _ _) Hi).
  - intros Hi. unfold Maintain, NewTicker.
    by rewrite (proj2 (Z.leb_gt _ _) Hi).
  - intros e Hnil Henv Hsafe. split.
    + intros Hno.
      destruct (tick_total e c w (fun _ _ => true) Henv Hsafe) as (u' & m' & w' & ->);
        [by right|done].
    + intros Hex. unfold tick.
      by rewrite (tick_locked_nil_func e c _ Henv Hsafe Hnil Hex).
Qed.

(** C9, as the code has it: Set stores an entry under a key of any type.  With
    at least one expiry callback registered, an expired entry whose key is not
    a string makes the expire pass panic at the type assertion; the pass
    completes when no expiry callback is registered, whatever the keys, and
    when every expired entry has a string key. *)
Theorem expire_pass_panics_on_non_string_key_with_callback
    (e : @TickEnv T) (c : @Cache T W) (w : W) :
  range_ok (ord_expire e) ->
  (forall n value expires,
     is_Some (data (Set_ (KInt n) value expires c) !! KInt n)) /\
  (expiryMiddlewares c <> [] ->
   (exists k item, data c !! k = Some item /\
                   is_expired (now_at e k) item = true /\ assert_string k = None) ->
   is_ok (expire_pass e (c, ∅, w)) = false) /\
  (expiryMiddlewares c = [] -> is_ok (expire_pass e (c, ∅, w)) = true) /\
  ((forall k item, data c !! k = Some item ->
                   is_expired (now_at e k) item = true -> is_Some (assert_string k)) ->
   is_ok (expire_pass e (c, ∅, w)) = true).
Proof.
  intros Ho. split; [|split; [|split]].
  - intros n value expires. rewrite data_Set, lookup_insert_eq. by eexists.
  - intros Hms (k & item & Hk & Hexp & Hstr). unfold expire_pass.
    apply expire_range_panics; [done|]. exists k, item.
    split; [|done]. apply range_ok_elem; [done|]. by exists item.
  - intros Hms.
    destruct (expire_pass_spec e c w Ho) as (u' & m' & P' & -> & _); [by left|done].
  - intros Hstr.
    destruct (expire_pass_spec e c w Ho) as (u' & m' & P' & -> & _); [by right|done].
Qed.


(** ** The batches between ticks *)

Lemma tick_clears_batches (e : @TickEnv T) c w c' w' :
  tick e c w = Ok (c', w') -> batches_empty c'.
Proof.
  unfold tick. destruct (tick_locked e c _) as [[c1 w1]|p]; [|done].
  change (mbind ?g (Ok ?a)) with (g a). cbv beta iota zeta.
  intros [= <- <-]. unfold batches_empty. simpl.
  rewrite !batch_insert. done.
Qed.

(** Every tick starts from empty batches: a new cache has them empty, the
    methods do not touch them and a tick ends by clearing them. *)
Lemma run_batches_empty (ops : list (@op T)) :
  forall (s s' : @Cache T W * W),
  batches_empty s.1 -> run ops s = Ok s' -> batches_empty s'.1.
Proof.
  induction ops as [|o ops IH]; intros s s' Hs; simpl.
  - by intros [= <-].
  - destruct (step o s) as [s1|p] eqn:Hstep; [|done].
    change (mbind ?g (Ok ?a)) with (g a). cbv beta.
    apply IH. destruct s as [c w], s1 as [c1 w1]. simpl in *.
    destruct o as [k v ex|k now|o now|k|o|e]; simpl in Hstep;
      try (injection Hstep as <- <-).
    + unfold batches_empty. destruct (Set_frame k v ex c) as (_ & -> & _). done.
    + unfold batches_empty, Get.
      by destruct (data c !! k) as [item|]; [destruct (_ && _)|].
    + done.
    + unfold batches_empty, Delete. by destruct (data c !! k).
    + unfold batches_empty, DeleteAll.
      by destruct (delete_all_fold (o (data c)) c) as (d' & -> & _).
    + by eapply tick_clears_batches.
Qed.

Lemma New_batches_empty : batches_empty (@New T W).
Proof. by repeat split. Qed.

End CacheProperties.

(** * More of the package: what the remaining code does *)

Section CacheCoverage.

Context {T W : Type} `{GoType T}.

Implicit Types (c : @Cache T W) (k : key) (item : @Item T) (w : W).

#[local] Arguments values_at : simpl never.
#[local] Arguments expired_keys : simpl never.
#[local] Arguments created_keys : simpl never.
#[local] Arguments updated_keys : simpl never.
#[local] Arguments gone_keys : simpl never.
#[local] Arguments listed_keys : simpl never.
#[local] Arguments expiry_calls : simpl never.

(** ** GetAll *)

Lemma GetAll_fold (now : key -> Z) (d : gmap key (@Item T)) (ks : list key) :
  forall res : list T,
  fold_left (fun res k =>
               match d !! k with
               | Some item =>
                   if GoTime.IsZero (Expires item)
                      || GoTime.After (Expires item) (now k)
                   then res ++ [Value item]
                   else res
               | None => res
               end) ks res =
  res ++ values_at d (listed_keys now d ks).
Proof.
  induction ks as [|k ks IH]; intros res.
  - unfold listed_keys. rewrite filter_nil. unfold values_at. simpl.
    by rewrite app_nil_r.
  - simpl. rewrite IH. unfold listed_keys. rewrite filter_keys_cons.
    destruct (listed_at now d k) eqn:Hl; unfold listed_at in Hl;
      destruct (d !! k) as [item|] eqn:Hk; try done; rewrite Hl; [|done].
    by rewrite values_at_cons, Hk, <- app_assoc.
Qed.

Lemma elem_of_listed_keys (now : key -> Z) (d : gmap key (@Item T))
    (o : @RangeOrder T) k :
  range_ok o ->
  k ∈ listed_keys now d (o d) <->
  exists item, d !! k = Some item /\ (Expires item = 0 \/ now k < Expires item).
Proof.
  intros Ho. unfold listed_keys. rewrite list_elem_of_filter, range_ok_elem by done.
  unfold listed_at, GoTime.IsZero, GoTime.After. split.
  - intros [Hl [item Hk]]. rewrite Hk in Hl. exists item. split; [done|].
    apply Is_true_true, orb_true_iff in Hl as [Hz|Hlt]; [left|right]; lia.
  - intros (item & Hk & Hlive). rewrite Hk. split; [|by exists item].
    apply Is_true_true, orb_true_iff. destruct Hlive; [left|right]; lia.
Qed.

(** X1: GetAll returns, in the order the map is ranged over, the value of
    exactly the entries whose expiry is zero or strictly after the reading of
    the clock, one value per such entry; so it holds at most as many values as
    the store has entries, and a value is in it exactly when some such entry
    carries it. *)
Theorem GetAll_lists_unexpired_values (o : @RangeOrder T) (now : key -> Z)
    (c : @Cache T W) :
  range_ok o ->
  let ks := listed_keys now (data c) (o (data c)) in
  GetAll o now c = values_at (data c) ks /\
  NoDup ks /\
  length (GetAll o now c) = length ks /\
  (length (GetAll o now c) <= size (data c))%nat /\
  (forall k, k ∈ ks <->
     exists item, data c !! k = Some item /\
                  (Expires item = 0 \/ now k < Expires item)) /\
  (forall v, v ∈ GetAll o now c <->
     exists k item, data c !! k = Some item /\ Value item = v /\
                    (Expires item = 0 \/ now k < Expires item)).
Proof.
  intros Ho ks.
  assert (Heq : GetAll o now c = values_at (data c) ks).
  { unfold GetAll. by rewrite GetAll_fold. }
  assert (Hks : forall k, k ∈ ks <->
            exists item, data c !! k = Some item /\
                         (Expires item = 0 \/ now k < Expires item)).
  { intros k. by apply elem_of_listed_keys. }
  assert (Hlen : length (values_at (data c) ks) = length ks).
  { apply length_values_at. intros k Hk. apply Hks in Hk as (item & -> & _).
    by exists item. }
  split; [done|]. split; [apply NoDup_filter; by apply range_ok_NoDup|].
  split; [by rewrite Heq|]. split.
  { rewrite Heq, Hlen. unfold ks, listed_keys.
    etrans; [apply length_filter|]. rewrite (Ho (data c)), length_fmap.
    by rewrite length_map_to_list. }
  split; [done|].
  intros v. rewrite Heq. unfold values_at. rewrite list_elem_of_omap. split.
  - intros (k & Hk & Hv). apply Hks in Hk as (item & Hitem & Hlive).
    rewrite Hitem in Hv. simpl in Hv. exists k, item. by simplify_eq.
  - intros (k & item & Hitem & Hv & Hlive). exists k. split.
    + apply Hks. by exists item.
    + rewrite Hitem. simpl. by rewrite Hv.
Qed.

(** X2: at one reading of the clock, every entry GetAll lists is a hit for
    Get, and every hit of Get is listed by GetAll unless its expiry is that
    very instant: an entry whose non-zero expiry equals the clock reading is
    still returned by Get and already left out by GetAll. *)
Theorem Get_and_GetAll_differ_at_the_expiry_instant (o : @RangeOrder T)
    (now : Z) (k : key) (item : @Item T) (c : @Cache T W) :
  range_ok o -> data c !! k = Some item ->
  let ks := listed_keys (fun _ => now) (data c) (o (data c)) in
  (k ∈ ks -> (Get k now c).1 = (Value item, true)) /\
  ((Get k now c).1.2 = true -> k ∈ ks \/ Expires item = now) /\
  (Expires item = now -> now <> 0 ->
   (Get k now c).1 = (Value item, true) /\ k ∉ ks).
Proof.
  intros Ho Hk ks.
  assert (Hks : k ∈ ks <-> Expires item = 0 \/ now < Expires item).
  { unfold ks. rewrite elem_of_listed_keys by done. split.
    - intros (item' & Hk' & Hlive). by simplify_eq.
    - intros Hlive. by exists item. }
  unfold Get. rewrite Hk. unfold GoTime.IsZero, GoTime.Before.
  destruct (Z.eqb_spec (Expires item) 0) as [Hz|Hz];
    destruct (Z.ltb_spec (Expires item) now) as [Hlt|Hlt]; simpl;
    rewrite Hks; repeat split; try done; try lia; intros; try lia;
    try (intros [?|?]; lia).
Qed.


(** ** Set, Get and Delete together *)

Import GoIntFacts.

(** X3: setting a key the store does not hold and deleting it again gives
    back the store as it was, with memoryUsageBytes, hits and misses at their
    old values and items at the number of entries; the snapshot and the
    batches are not touched. *)
Theorem Set_then_Delete_restores (k : key) (value : T) (expires : list Z)
    (c : @Cache T W) :
  data c !! k = None ->
  GoInt.in_range (metric (Metrics c) "memoryUsageBytes") ->
  let c' := Delete k (Set_ k value expires c) in
  data c' = data c /\
  metric (Metrics c') "memoryUsageBytes" = metric (Metrics c) "memoryUsageBytes" /\
  metric (Metrics c') "items" = len (data c) /\
  metric (Metrics c') "hits" = metric (Metrics c) "hits" /\
  metric (Metrics c') "misses" = metric (Metrics c) "misses" /\
  prev c' = prev c /\ updates c' = updates c.
Proof.
  intros Hk Hr. cbv zeta. unfold Delete.
  rewrite data_Set, lookup_insert_eq. unfold Set_. rewrite Hk. simpl.
  rewrite !metric_insert. simpl. rewrite delete_insert_id by done.
  repeat split; try done.
  unfold GoInt.sub, GoInt.add. rewrite wrap_sub_l.
  replace (_ + _ - _) with (metric (Metrics c) "memoryUsageBytes") by ring.
  by apply wrap_id.
Qed.

(** X4: a second Set on the same key leaves no trace of the first: the cache
    is the one the second Set alone would have made, counters included. *)
Theorem Set_overwrites_Set (k : key) (v1 v2 : T) (e1 e2 : list Z)
    (c : @Cache T W) :
  Set_ k v2 e2 (Set_ k v1 e1 c) = Set_ k v2 e2 c.
Proof.
  unfold Set_ at 1. rewrite data_Set, lookup_insert_eq.
  unfold Set_. destruct (data c !! k) as [old|] eqn:Hk.
  all: unfold store_metric, updateMemoryUsage, set_Metrics, set_data; simpl.
  all: rewrite !metric_insert; simpl.
  all: rewrite insert_insert_eq.
  all: f_equal.
  all: apply map_eq; intros n; rewrite !lookup_insert.
  all: repeat case_decide; simplify_eq; try done.
  all: f_equal; unfold item_size.
  all: set (s := GoInt.add _ sizeof_Expires).
  all: unfold GoInt.add, GoInt.sub.
  all: rewrite ?wrap_sub_l.
  all: match goal with
       | |- context [GoInt.wrap (?a + ?b - ?b)] =>
           replace (a + b - b) with a by ring
       end.
  all: by rewrite ?wrap_wrap, ?wrap_add_l.
Qed.

(** X5: Get does not evict.  On an entry that is expired at the call time it
    misses, yet the entry stays in the store and items and memoryUsageBytes
    still count it; it misses again at every later time, until the key is set
    anew or a tick removes the entry. *)
Theorem Get_does_not_evict (k : key) (now : Z) (item : @Item T) (c : @Cache T W) :
  data c !! k = Some item -> is_expired now item = true ->
  let c' := (Get k now c).2 in
  (Get k now c).1 = (zeroT, false) /\
  data c' = data c /\
  metric (Metrics c') "items" = metric (Metrics c) "items" /\
  metric (Metrics c') "memoryUsageBytes" = metric (Metrics c) "memoryUsageBytes" /\
  (forall later, now <= later -> (Get k later c').1 = (zeroT, false)).
Proof.
  intros Hk Hexp. cbv zeta.
  assert (Hlater : forall later, now <= later -> is_expired later item = true).
  { intros later Hle. apply is_expired_spec in Hexp. apply is_expired_spec. lia. }
  assert (Hmiss : forall t c0, data c0 !! k = Some item -> is_expired t item = true ->
            Get k t c0 =
            (zeroT, false,
             store_metric "misses" (GoInt.add (metric (Metrics c0) "misses") 1) c0)).
  { intros t c0 Hk0 Ht. unfold Get. rewrite Hk0. unfold is_expired in Ht.
    by rewrite Ht. }
  rewrite (Hmiss now c Hk Hexp). simpl. rewrite !metric_insert. simpl.
  repeat split; try done.
  intros later Hle. by rewrite Hmiss by auto.
Qed.


(** ** A whole tick *)

Lemma tick_unfolds (e : @TickEnv T) c w (f : T -> T -> bool) :
  env_ok e -> expiry_keys_ok (now_at e) c ->
  compare_ready f c (unexpired (now_at e) (data c)) -> batches_empty c ->
  let d1 := unexpired (now_at e) (data c) in
  let eks := expired_keys (now_at e) (data c) (ord_expire e (data c)) in
  exists u' m',
    tick e c w =
      Ok (set_prev d1 (set_Metrics m' (set_updates u' (set_data d1 c))),
          tick_world e f c w) /\
    batch u' "created" = [] /\ batch u' "updated" = [] /\ batch u' "deleted" = [] /\
    (forall n, metric m' n =
               if decide (n = "memoryUsageBytes")
               then fold_left (fun acc _ => GoInt.sub acc size_estimate) eks
                      (metric (Metrics c) "memoryUsageBytes")
               else if decide (n = "items")
               then match eks with
                    | [] => metric (Metrics c) "items"
                    | _ :: _ => len d1
                    end
               else metric (Metrics c) n).
Proof.
  intros Henv Hsafe Hready (Hbc & Hbu & Hbd) d1 eks.
  destruct (tick_locked_spec e c (call_ticks (beforeTickMiddleware c) w) f
              Henv Hsafe Hready) as (u' & m' & Hrun & Hcr & Hup & Hdel & Hm').
  rewrite Hbc in Hcr. rewrite Hbu in Hup. rewrite Hbd in Hdel. simpl in Hcr, Hup, Hdel.
  exists (<["deleted" := []]> (<["updated" := []]> (<["created" := []]> u'))), m'.
  split; [|split; [|split; [|split; [|exact Hm']]]].
  - unfold tick. rewrite Hrun.
    change (mbind ?g (Ok ?a)) with (g a). cbv beta iota zeta.
    unfold clear_updates. simpl. rewrite Hcr, Hup, Hdel. reflexivity.
  - by rewrite !batch_insert.
  - by rewrite !batch_insert.
  - by rewrite !batch_insert.
Qed.

(** X6: a tick that can reach its type assertion and its comparison safely,
    started with empty batches, runs the callbacks in this order: before-tick,
    expiry (one round per expired entry), create, update, delete, each batch
    callback only on a non-empty batch, then after-tick.  It ends with store
    and snapshot both equal to the unexpired part of the store and with empty
    batches, and it leaves the interval, the predicate, every callback list
    and the hits and misses counters as they were. *)
Theorem tick_runs_callbacks_in_order (e : @TickEnv T) (c : @Cache T W) (w : W)
    (f : T -> T -> bool) :
  env_ok e -> expiry_keys_ok (now_at e) c ->
  compare_ready f c (unexpired (now_at e) (data c)) -> batches_empty c ->
  exists c',
    tick e c w = Ok (c', tick_world e f c w) /\
    data c' = unexpired (now_at e) (data c) /\
    prev c' = unexpired (now_at e) (data c) /\
    batches_empty c' /\
    interval c' = interval c /\ compareFunc c' = compareFunc c /\
    beforeTickMiddleware c' = beforeTickMiddleware c /\
    afterTickMiddleware c' = afterTickMiddleware c /\
    createMiddlewares c' = createMiddlewares c /\
    updateMiddlewares c' = updateMiddlewares c /\
    deleteMiddlewares c' = deleteMiddlewares c /\
    expiryMiddlewares c' = expiryMiddlewares c /\
    metric (Metrics c') "hits" = metric (Metrics c) "hits" /\
    metric (Metrics c') "misses" = metric (Metrics c) "misses".
Proof.
  intros Henv Hsafe Hready Hb.
  destruct (tick_unfolds e c w f Henv Hsafe Hready Hb)
    as (u' & m' & Hrun & Hcr & Hup & Hdel & Hm').
  eexists. split; [exact Hrun|]. simpl.
  rewrite !Hm'. by repeat split.
Qed.

Lemma filter_keys_none (P : key -> bool) (ks : list key) :
  (forall k, k ∈ ks -> P k = false) -> filter (fun k => P k) ks = [].
Proof.
  induction ks as [|k ks IH]; intros Hno; [done|].
  rewrite filter_keys_cons, (Hno k) by apply list_elem_of_here.
  apply IH. intros j Hj. apply Hno. by apply list_elem_of_further.
Qed.

Lemma filter_keys_all (P : key -> bool) (ks : list key) :
  (forall k, k ∈ ks -> P k = true) -> filter (fun k => P k) ks = ks.
Proof.
  induction ks as [|k ks IH]; intros Hall; [done|].
  rewrite filter_keys_cons, (Hall k) by apply list_elem_of_here.
  f_equal. apply IH. intros j Hj. apply Hall. by apply list_elem_of_further.
Qed.

Lemma unexpired_none_expired (now : key -> Z) (d : gmap key (@Item T)) :
  none_expired now d -> unexpired now d = d.
Proof.
  intros Hno. apply map_eq. intros k. rewrite lookup_unexpired.
  destruct (d !! k) as [item|] eqn:Hk; [|done]. by rewrite (Hno k item Hk).
Qed.

Lemma expired_keys_none_expired (now : key -> Z) (d : gmap key (@Item T))
    (ks : list key) :
  none_expired now d -> expired_keys now d ks = [].
Proof.
  intros Hno. apply filter_keys_none. intros k _. unfold expired_at.
  destruct (d !! k) as [item|] eqn:Hk; [|done]. by apply (Hno k item).
Qed.

Lemma dispatch_nil (ms : list (@Middleware T W)) w : dispatch ms [] w = w.
Proof. reflexivity. Qed.

Lemma values_at_nil (d : gmap key (@Item T)) : values_at d [] = [].
Proof. reflexivity. Qed.

(** A tick over a store that equals its snapshot, with nothing expired. *)
Lemma tick_quiet (e : @TickEnv T) c w (f : T -> T -> bool) :
  env_ok e -> batches_empty c -> prev c = data c ->
  none_expired (now_at e) (data c) ->
  compareFunc c = Some f -> reflexive_on f (data c) ->
  exists u' m',
    tick e c w =
      Ok (set_prev (data c) (set_Metrics m' (set_updates u' (set_data (data c) c))),
          call_ticks (afterTickMiddleware c) (call_ticks (beforeTickMiddleware c) w)) /\
    batch u' "created" = [] /\ batch u' "updated" = [] /\ batch u' "deleted" = [] /\
    forall n, metric m' n = metric (Metrics c) n.
Proof.
  intros Henv Hb Hprev Hno Hf Hrefl.
  assert (Hsafe : expiry_keys_ok (now_at e) c).
  { right. intros k item Hk Hexp. by rewrite (Hno k item Hk) in Hexp. }
  assert (Hready : compare_ready f c (unexpired (now_at e) (data c))) by (by left).
  destruct (tick_unfolds e c w f Henv Hsafe Hready Hb)
    as (u' & m' & Hrun & Hcr & Hup & Hdel & Hm').
  unfold tick_world in Hrun.
  rewrite (unexpired_none_expired _ _ Hno) in Hrun.
  rewrite (expired_keys_none_expired _ _ _ Hno) in Hrun, Hm'.
  assert (Hck : created_keys (data c) (prev c) (ord_diff e (data c)) = []).
  { apply filter_keys_none. intros k _. unfold created_at. rewrite Hprev.
    by destruct (data c !! k). }
  assert (Huk : updated_keys f (data c) (prev c) (ord_diff e (data c)) = []).
  { apply filter_keys_none. intros k _. unfold updated_at. rewrite Hprev.
    destruct (data c !! k) as [item|] eqn:Hk; [|done].
    by rewrite (Hrefl k item Hk). }
  assert (Hgk : gone_keys (data c) (list_to_set []) (ord_deleted e (prev c)) = []).
  { apply filter_keys_none. intros k Hk. unfold gone_at.
    apply range_ok_elem in Hk as [item Hk]; [|apply Henv].
    rewrite Hprev in Hk. by rewrite Hk. }
  rewrite Hck, Huk, Hgk in Hrun. rewrite !values_at_nil in Hrun. simpl in Hrun.
  exists u', m'. split; [exact Hrun|]. repeat split; try done.
  intros n. rewrite Hm'. simpl. by repeat case_decide; subst.
Qed.

(** X7: a tick over a store that equals its snapshot, with nothing expired and
    a predicate that holds between each stored value and itself, reports
    nothing: only the before-tick and after-tick callbacks run, and the store,
    the snapshot and all counters stay as they are. *)
Theorem tick_with_no_change_reports_nothing (e : @TickEnv T) (c : @Cache T W)
    (w : W) (f : T -> T -> bool) :
  env_ok e -> batches_empty c -> prev c = data c ->
  none_expired (now_at e) (data c) ->
  compareFunc c = Some f -> reflexive_on f (data c) ->
  exists c',
    tick e c w =
      Ok (c', call_ticks (afterTickMiddleware c)
                (call_ticks (beforeTickMiddleware c) w)) /\
    data c' = data c /\ prev c' = data c /\
    forall n, metric (Metrics c') n = metric (Metrics c) n.
Proof.
  intros Henv Hb Hprev Hno Hf Hrefl.
  destruct (tick_quiet e c w f Henv Hb Hprev Hno Hf Hrefl)
    as (u' & m' & Hrun & _ & _ & _ & Hm').
  eexists. split; [exact Hrun|]. by simpl.
Qed.


Lemma tick_snapshot (e : @TickEnv T) c w c' w' :
  env_ok e -> tick e c w = Ok (c', w') -> prev c' = data c'.
Proof.
  intros Henv. unfold tick, tick_locked.
  destruct (expire_pass e _) as [[[c1 P] w1]|p]; [|done].
  change (mbind ?g (Ok ?a)) with (g a). cbv beta iota.
  destruct (diff_pass e c1) as [c2|p]; [|done].
  change (mbind ?g (Ok ?a)) with (g a). cbv beta.
  destruct (deleted_pass e P c2) as [c3|p]; [|done].
  change (mbind ?g (Ok ?a)) with (g a). cbv beta.
  rewrite copy_pass_spec by apply Henv.
  change (mbind ?g (Ok ?a)) with (g a). cbv beta iota zeta.
  by intros [= <- <-].
Qed.

(** X8: every change is reported once.  After a tick has completed, a second
    tick with no call in between and no entry expired at its clock readings
    runs only the before-tick and after-tick callbacks, whatever the first
    tick reported, provided the predicate holds between each stored value and
    itself. *)
Theorem second_tick_reports_nothing (e1 e2 : @TickEnv T) (c c1 : @Cache T W)
    (w w1 : W) (f : T -> T -> bool) :
  env_ok e1 -> env_ok e2 -> tick e1 c w = Ok (c1, w1) ->
  none_expired (now_at e2) (data c1) ->
  compareFunc c1 = Some f -> reflexive_on f (data c1) ->
  exists c2,
    tick e2 c1 w1 =
      Ok (c2, call_ticks (afterTickMiddleware c1)
                (call_ticks (beforeTickMiddleware c1) w1)) /\
    data c2 = data c1 /\ prev c2 = data c1 /\
    forall n, metric (Metrics c2) n = metric (Metrics c1) n.
Proof.
  intros Henv1 Henv2 Hrun1 Hno Hf Hrefl.
  pose proof (tick_snapshot e1 c w c1 w1 Henv1 Hrun1) as Hprev.
  pose proof (tick_clears_batches e1 c w c1 w1 Hrun1) as Hb.
  destruct (tick_quiet e2 c1 w1 f Henv2 Hb Hprev Hno Hf Hrefl)
    as (u' & m' & Hrun & _ & _ & _ & Hm').
  eexists. split; [exact Hrun|]. by simpl.
Qed.

(** X9: eviction cannot be seen through Get.  For every key, a Get after a
    tick, at a time not before the tick's clock reading for that key, returns
    the value and found flag it would have returned at that time without the
    tick. *)
Theorem tick_does_not_change_Get (e : @TickEnv T) (c : @Cache T W) (w : W)
    (f : T -> T -> bool) :
  env_ok e -> expiry_keys_ok (now_at e) c ->
  compare_ready f c (unexpired (now_at e) (data c)) ->
  exists c' w',
    tick e c w = Ok (c', w') /\
    forall k later, now_at e k <= later -> (Get k later c').1 = (Get k later c).1.
Proof.
  intros Henv Hsafe Hready.
  destruct (tick_total e c w f Henv Hsafe Hready) as (u' & m' & w' & Hrun).
  eexists _, _. split; [exact Hrun|].
  intros k later Hle. unfold Get. simpl. rewrite lookup_unexpired.
  destruct (data c !! k) as [item|] eqn:Hk; [|done].
  destruct (is_expired (now_at e k) item) eqn:Hexp.
  - assert (Hlater : is_expired later item = true).
    { apply is_expired_spec in Hexp. apply is_expired_spec. lia. }
    unfold is_expired in Hlater. by rewrite Hlater.
  - by destruct (_ && _).
Qed.

Lemma Set_then_Delete_metrics_only (k : key) (value : T) (expires : list Z) c :
  data c !! k = None ->
  exists m, Delete k (Set_ k value expires c) = set_Metrics m c.
Proof.
  intros Hk. unfold Delete. rewrite data_Set, lookup_insert_eq.
  unfold Set_. rewrite Hk.
  unfold store_metric, updateMemoryUsage, set_Metrics, set_data. simpl.
  rewrite delete_insert_id by done. eexists. destruct c. reflexivity.
Qed.

(** X10: an entry set and deleted again between two ticks is never reported.
    The next tick runs the same callbacks on the same batches, and leaves the
    same store and snapshot, as if neither call had been made. *)
Theorem Set_then_Delete_is_not_reported (e : @TickEnv T) (k : key) (value : T)
    (expires : list Z) (c : @Cache T W) (w : W) (f : T -> T -> bool) :
  data c !! k = None ->
  env_ok e -> expiry_keys_ok (now_at e) c ->
  compare_ready f c (unexpired (now_at e) (data c)) -> batches_empty c ->
  exists c1 c2,
    tick e c w = Ok (c1, tick_world e f c w) /\
    tick e (Delete k (Set_ k value expires c)) w = Ok (c2, tick_world e f c w) /\
    data c2 = data c1 /\ prev c2 = prev c1.
Proof.
  intros Hk Henv Hsafe Hready Hb.
  destruct (Set_then_Delete_metrics_only k value expires c Hk) as [m ->].
  destruct (tick_unfolds e c w f Henv Hsafe Hready Hb) as (u1 & m1 & Hrun1 & _).
  destruct (tick_unfolds e (set_Metrics m c) w f Henv Hsafe Hready Hb)
    as (u2 & m2 & Hrun2 & _).
  eexists _, _. split; [exact Hrun1|]. split; [exact Hrun2|]. by simpl.
Qed.

(** X11: DeleteAll is reported by the next tick as one delete per snapshot
    entry and nothing else, with or without an equality predicate: the delete
    callbacks get the snapshot values in the order the snapshot is ranged
    over, no expiry, create or update callback runs, and store and snapshot
    end empty.  Entries set since the last tick are dropped unreported. *)
Theorem DeleteAll_is_reported_as_deletes (e : @TickEnv T) (o : @RangeOrder T)
    (c : @Cache T W) (w : W) :
  env_ok e -> range_ok o -> batches_empty c ->
  let deleted := values_at (prev c) (ord_deleted e (prev c)) in
  exists c',
    tick e (DeleteAll o c) w =
      Ok (c', call_ticks (afterTickMiddleware c)
                (dispatch (deleteMiddlewares c) deleted
                   (call_ticks (beforeTickMiddleware c) w))) /\
    length deleted = size (prev c) /\
    data c' = ∅ /\ prev c' = ∅.
Proof.
  intros Henv Ho Hb deleted. rewrite DeleteAll_spec by done.
  set (c0 := store_metric "items" 0 _).
  assert (Hd0 : data c0 = ∅) by reflexivity.
  assert (Hno : none_expired (now_at e) (data c0)).
  { intros k item Hk. by rewrite Hd0, lookup_empty in Hk. }
  assert (Hsafe : expiry_keys_ok (now_at e) c0).
  { right. intros k item Hk. by rewrite Hd0, lookup_empty in Hk. }
  set (f := default (fun _ _ => true) (compareFunc c)).
  assert (Hready : compare_ready f c0 (unexpired (now_at e) (data c0))).
  { rewrite (unexpired_none_expired _ _ Hno). unfold compare_ready, f.
    change (compareFunc c0) with (compareFunc c).
    destruct (compareFunc c); [by left|right].
    split; [done|]. intros k [item Hk]. by rewrite Hd0, lookup_empty in Hk. }
  destruct (tick_unfolds e c0 w f Henv Hsafe Hready Hb)
    as (u' & m' & Hrun & _).
  unfold tick_world in Hrun.
  rewrite (unexpired_none_expired _ _ Hno) in Hrun.
  rewrite (expired_keys_none_expired _ _ _ Hno) in Hrun.
  assert (Hck : created_keys (data c0) (prev c0) (ord_diff e (data c0)) = []).
  { apply filter_keys_none. intros k _. unfold created_at.
    by rewrite Hd0, lookup_empty. }
  assert (Huk : updated_keys f (data c0) (prev c0) (ord_diff e (data c0)) = []).
  { apply filter_keys_none. intros k _. unfold updated_at.
    by rewrite Hd0, lookup_empty. }
  assert (Hgk : gone_keys (data c0) (list_to_set []) (ord_deleted e (prev c0)) =
                ord_deleted e (prev c)).
  { apply filter_keys_all. intros k _. unfold gone_at.
    rewrite Hd0, lookup_empty. by apply bool_decide_eq_true_2, not_elem_of_empty. }
  rewrite Hck, Huk, Hgk in Hrun. rewrite !values_at_nil in Hrun. simpl in Hrun.
  eexists. split; [exact Hrun|]. split; [|done].
  unfold deleted. rewrite length_values_at.
  - destruct Henv as (_ & _ & Hog & _).
    by rewrite (Hog (prev c)), length_fmap, length_map_to_list.
  - intros k Hk. apply range_ok_elem in Hk; [done|apply Henv].
Qed.


(** ** Configuration *)

Lemma configure_snoc (cfgs : list (@config T W)) (cfg : @config T W) c :
  configure (cfgs ++ [cfg]) c = apply_config cfg (configure cfgs c).
Proof. unfold configure. by rewrite fold_left_app. Qed.

(** X12: of a chain of configuration calls the last WithInterval and the last
    Equals count, and without one the value the cache had stays.  A cache made
    by New has interval 0, so Maintain panics at its start on every cache
    configured from New unless the chain's last WithInterval is positive, in
    particular when the chain has no WithInterval at all. *)
Theorem last_WithInterval_decides_Maintain (cfgs : list (@config T W))
    (c : @Cache T W) (sched : list (@op T)) (w : W) :
  interval (configure cfgs c) = default (interval c) (last_interval cfgs) /\
  compareFunc (configure cfgs c) =
    match last_equals cfgs with
    | Some f => Some f
    | None => compareFunc c
    end /\
  Maintain sched (configure cfgs New) w =
    if default 0 (last_interval cfgs) <=? 0
    then Panic PanicNonPositiveInterval
    else run sched (configure cfgs New, w).
Proof.
  assert (Hboth : forall c0 : @Cache T W,
            interval (configure cfgs c0) = default (interval c0) (last_interval cfgs) /\
            compareFunc (configure cfgs c0) =
              match last_equals cfgs with
              | Some f => Some f
              | None => compareFunc c0
              end).
  { intros c0. induction cfgs as [|cfg cfgs IH] using rev_ind; [done|].
    rewrite configure_snoc. unfold last_interval, last_equals.
    rewrite !fold_left_app. simpl.
    fold (last_interval cfgs). fold (last_equals cfgs).
    destruct IH as [IHi IHe]. destruct cfg; simpl; by rewrite ?IHi, ?IHe. }
  split; [apply Hboth|]. split; [apply Hboth|].
  unfold Maintain, NewTicker. rewrite (proj1 (Hboth New)). simpl interval.
  by destruct (_ <=? 0).
Qed.

(** X13: configuration only registers.  A chain of configuration calls leaves
    the store, the snapshot, the batches and the counters alone and appends
    each callback to the end of its list, in the order of the calls; a batch
    is therefore handed first to the callbacks that were there, then to the
    new ones in the order they were registered, each seeing the world the
    previous one left. *)
Theorem configure_appends_callbacks (cfgs : list (@config T W)) (c : @Cache T W) :
  data (configure cfgs c) = data c /\
  prev (configure cfgs c) = prev c /\
  updates (configure cfgs c) = updates c /\
  Metrics (configure cfgs c) = Metrics c /\
  createMiddlewares (configure cfgs c) = createMiddlewares c ++ asked_create cfgs /\
  updateMiddlewares (configure cfgs c) = updateMiddlewares c ++ asked_update cfgs /\
  deleteMiddlewares (configure cfgs c) = deleteMiddlewares c ++ asked_delete cfgs /\
  expiryMiddlewares (configure cfgs c) = expiryMiddlewares c ++ asked_expiry cfgs /\
  beforeTickMiddleware (configure cfgs c) = beforeTickMiddleware c ++ asked_before cfgs /\
  afterTickMiddleware (configure cfgs c) = afterTickMiddleware c ++ asked_after cfgs /\
  (forall records w,
     call_batch (createMiddlewares (configure cfgs c)) records w =
     call_batch (asked_create cfgs) records
       (call_batch (createMiddlewares c) records w)).
Proof.
  assert (Hall :
    data (configure cfgs c) = data c /\
    prev (configure cfgs c) = prev c /\
    updates (configure cfgs c) = updates c /\
    Metrics (configure cfgs c) = Metrics c /\
    createMiddlewares (configure cfgs c) = createMiddlewares c ++ asked_create cfgs /\
    updateMiddlewares (configure cfgs c) = updateMiddlewares c ++ asked_update cfgs /\
    deleteMiddlewares (configure cfgs c) = deleteMiddlewares c ++ asked_delete cfgs /\
    expiryMiddlewares (configure cfgs c) = expiryMiddlewares c ++ asked_expiry cfgs /\
    beforeTickMiddleware (configure cfgs c) = beforeTickMiddleware c ++ asked_before cfgs /\
    afterTickMiddleware (configure cfgs c) = afterTickMiddleware c ++ asked_after cfgs).
  { induction cfgs as [|cfg cfgs IH] using rev_ind.
    - simpl. by rewrite !app_nil_r.
    - rewrite configure_snoc.
      unfold asked_create, asked_update, asked_delete, asked_expiry,
        asked_before, asked_after in *.
      rewrite !omap_app.
      destruct IH as (I1 & I2 & I3 & I4 & I5 & I6 & I7 & I8 & I9 & I10).
      destruct cfg; simpl;
        rewrite ?I1, ?I2, ?I3, ?I4, ?I5, ?I6, ?I7, ?I8, ?I9, ?I10,
          ?app_nil_r, <- ?app_assoc; done. }
  destruct Hall as (I1 & I2 & I3 & I4 & I5 & I6 & I7 & I8 & I9 & I10).
  repeat (split; [done|]).
  intros records w. rewrite I5. unfold call_batch. by rewrite fold_left_app.
Qed.

(** ** The counters, once more *)

(** X14: memoryUsageBytes carries no more than the entry count.  After any
    run of calls and ticks from a cache whose counters agree with its store,
    memoryUsageBytes is items times the one size estimate of the
    instantiation, whenever that product fits an int; and items is never
    negative. *)
Theorem memoryUsageBytes_is_items_times_estimate (ops : list (@op T))
    (c0 c : @Cache T W) (w w' : W) :
  metrics_consistent c0 -> Forall op_ok ops -> run ops (c0, w) = Ok (c, w') ->
  0 <= metric (Metrics c) "items" /\
  (GoInt.in_range (size_estimate * metric (Metrics c) "items") ->
   metric (Metrics c) "memoryUsageBytes" =
     size_estimate * metric (Metrics c) "items").
Proof.
  intros Hc0 Hops Hrun.
  destruct (run_consistent ops Hops (c0, w) (c, w') Hc0 Hrun) as [Hi Hm].
  simpl in Hi, Hm. rewrite Hi, Hm. split; [unfold len; lia|].
  intros Hr. rewrite <- store_bytes_exact_eq in *.
  by apply store_bytes_no_overflow.
Qed.

(** ** A key set again before the tick *)

(** X15: a Set without expiry shields its key at the next tick, whatever the
    store held under it before, an expired entry included: the expire pass
    does not select the key, the deleted pass does not select it, and the
    created/updated pass selects it as created exactly when the snapshot lacks
    it and as updated exactly when the snapshot holds a value the predicate
    tells apart from the new one. *)
Theorem Set_shields_key_at_next_tick (e : @TickEnv T) (k : key) (value : T)
    (c : @Cache T W) (f : T -> T -> bool) (P : gset key) :
  env_ok e ->
  let c' := Set_ k value [] c in
  let d1 := unexpired (now_at e) (data c') in
  d1 !! k = Some (mkItem value GoTime.zero) /\
  (k ∉ expired_keys (now_at e) (data c') (ord_expire e (data c'))) /\
  (k ∉ gone_keys d1 P (ord_deleted e (prev c'))) /\
  (k ∈ created_keys d1 (prev c') (ord_diff e d1) <-> prev c !! k = None) /\
  (k ∈ updated_keys f d1 (prev c') (ord_diff e d1) <->
   exists prevItem, prev c !! k = Some prevItem /\
                    f value (Value prevItem) = false).
Proof.
  intros (Hoe & Hod & Hog & _) c' d1.
  assert (Hk : data c' !! k = Some (mkItem value GoTime.zero)).
  { unfold c'. by rewrite data_Set, lookup_insert_eq. }
  assert (Hd1 : d1 !! k = Some (mkItem value GoTime.zero)).
  { unfold d1. by rewrite lookup_unexpired, Hk. }
  assert (Hprev : prev c' = prev c) by apply Set_frame.
  split; [done|]. split; [|split; [|split]].
  - rewrite elem_of_expired_keys by done. intros (item & Hitem & Hexp).
    rewrite Hk in Hitem. by simplify_eq.
  - rewrite elem_of_gone_keys by done. intros (_ & Hnone & _). congruence.
  - rewrite elem_of_created_keys, Hprev by done. rewrite Hd1.
    split; [by intros [_ ?]|]. intros Hp. split; [by eexists|done].
  - rewrite elem_of_updated_keys, Hprev by done. rewrite Hd1. split.
    + intros (item & prevItem & Hitem & Hp & Hf). simplify_eq. by exists prevItem.
    + intros (prevItem & Hp & Hf). by eexists _, prevItem.
Qed.


(** ** Get after Set and Delete *)

(** X16: Get answers from the latest Set or Delete of its own key and from
    nothing else.  A Set or a Delete on another key does not change what Get
    returns; after a Delete of its key Get misses; after a Set of its key Get
    returns the new value exactly when the expiry given is zero or not before
    the call time, and misses otherwise. *)
Theorem Get_follows_latest_Set_or_Delete (k : key) (now : Z) (c : @Cache T W) :
  (forall k' value expires, k' <> k ->
     (Get k now (Set_ k' value expires c)).1 = (Get k now c).1) /\
  (forall k', k' <> k -> (Get k now (Delete k' c)).1 = (Get k now c).1) /\
  (Get k now (Delete k c)).1 = (zeroT, false) /\
  (forall value e rest,
     (Get k now (Set_ k value (e :: rest) c)).1 =
     if decide (e = 0 \/ now <= e) then (value, true) else (zeroT, false)).
Proof.
  split; [|split; [|split]].
  - intros k' value expires Hne. unfold Get.
    rewrite data_Set, lookup_insert_ne by done.
    by destruct (data c !! k) as [item|]; [destruct (_ && _)|].
  - intros k' Hne. unfold Get.
    destruct (Delete_frame k' c) as (-> & _). rewrite lookup_delete_ne by done.
    by destruct (data c !! k) as [item|]; [destruct (_ && _)|].
  - unfold Get. destruct (Delete_frame k c) as (-> & _).
    by rewrite lookup_delete_eq.
  - intros value e rest. unfold Get. rewrite data_Set, lookup_insert_eq. simpl.
    unfold GoTime.IsZero, GoTime.Before.
    destruct (Z.eqb_spec e 0) as [Hz|Hz];
      destruct (Z.ltb_spec e now) as [Hlt|Hlt]; simpl;
      case_decide as Hd; try done; exfalso; lia.
Qed.

End CacheCoverage.

(** ** Stopping the loop *)

Module StopChanFacts.
Import StopChan.

Lemma returned_stops_call (l : loop_state) (cs : list caller_state) :
  returned_stops (mkSystem l (cs ++ [Sending])) = returned_stops (mkSystem l cs).
Proof.
  unfold returned_stops. simpl. rewrite List.filter_app, length_app. simpl. lia.
Qed.

Lemma returned_stops_receive (l l' : loop_state) (cs : list caller_state) (i : nat) :
  cs !! i = Some Sending ->
  returned_stops (mkSystem l' (<[i := Done]> cs)) = S (returned_stops (mkSystem l cs)).
Proof.
  unfold returned_stops. simpl. revert i.
  induction cs as [|c cs IH]; intros i Hi; [done|].
  destruct i as [|i]; simpl in *.
  - by simplify_eq.
  - destruct (is_done c); simpl; rewrite (IH i Hi); done.
Qed.

Lemma step_stops_match (l : label) (s s' : system) :
  stops_match_loop s -> step l s = Some s' -> stops_match_loop s'.
Proof.
  unfold stops_match_loop. destruct s as [lp cs]. intros Hs.
  destruct l; simpl in *.
  - destruct lp; intros [= <-]; done.
  - destruct lp; intros [= <-]; done.
  - destruct lp; intros [= <-]; done.
  - intros [= <-]. by rewrite returned_stops_call.
  - destruct lp; try done. destruct (cs !! i) as [[|]|] eqn:Hi; try done.
    intros [= <-]. by rewrite (returned_stops_receive Selecting _ cs i Hi), Hs.
Qed.

Lemma exec_stops_match (ls : list label) :
  forall s s', stops_match_loop s -> exec ls s = Some s' -> stops_match_loop s'.
Proof.
  induction ls as [|l ls IH]; intros s s' Hs; simpl.
  - by intros [= <-].
  - destruct (step l s) as [s1|] eqn:Hstep; [|done].
    apply IH. by eapply step_stops_match.
Qed.

(** Once the loop has returned, nothing receives: a caller stays as it is. *)
Lemma step_after_return (l : label) (s s' : system) :
  loop s = Returned -> step l s = Some s' ->
  loop s' = Returned /\
  forall i st, callers s !! i = Some st -> callers s' !! i = Some st.
Proof.
  destruct s as [lp cs]. simpl. intros ->.
  destruct l; simpl; try done.
  intros [= <-]. simpl. split; [done|].
  intros i st Hi. by apply lookup_app_l_Some.
Qed.

Lemma exec_after_return (ls : list label) :
  forall s s', loop s = Returned -> exec ls s = Some s' ->
  loop s' = Returned /\
  forall i st, callers s !! i = Some st -> callers s' !! i = Some st.
Proof.
  induction ls as [|l ls IH]; intros s s' Hs; simpl.
  - by intros [= <-].
  - destruct (step l s) as [s1|] eqn:Hstep; [|done].
    destruct (step_after_return l s s1 Hs Hstep) as [Hs1 Hkeep].
    intros Hrun. destruct (IH s1 s' Hs1 Hrun) as [Hs' Hkeep'].
    split; [done|]. intros i st Hi. by apply Hkeep', Hkeep.
Qed.

(** With no loop started, nothing receives either. *)
Lemma exec_before_start (ls : list label) :
  forall s s', loop s = NotStarted -> GoMaintain ∉ ls -> exec ls s = Some s' ->
  loop s' = NotStarted.
Proof.
  induction ls as [|l ls IH]; intros s s' Hs Hno; simpl.
  - by intros [= <-].
  - apply not_elem_of_cons in Hno as [Hl Hno].
    destruct s as [lp cs]. simpl in Hs. subst lp.
    destruct l; simpl; try done.
    by apply IH.
Qed.

(** C6, as the code has it: Stop is a blocking hand-off.  In every state the
    program reaches, the number of Stop calls that have returned is one if the
    loop has returned and zero otherwise, so the loop is signalled at most
    once.  A Stop call returns only through a receive by the loop in its
    select, which is possible for any blocked caller while the loop waits
    there; after the loop has returned every caller stays as it is, so a Stop
    still blocked or called later blocks for good, and so does every Stop
    while no loop has been started. *)
Theorem Stop_is_one_blocking_handoff (tr : list label) (s : system) :
  exec tr init = Some s ->
  returned_stops s = match loop s with Returned => 1%nat | _ => 0%nat end /\
  (loop s = Selecting ->
   forall i, callers s !! i = Some Sending ->
     exists s', step (Receive i) s = Some s' /\
                loop s' = Returned /\ callers s' !! i = Some Done) /\
  (loop s = Returned ->
   forall more s', exec more s = Some s' ->
     loop s' = Returned /\
     forall i st, callers s !! i = Some st -> callers s' !! i = Some st) /\
  (loop s = NotStarted ->
   forall more s', GoMaintain ∉ more -> exec more s = Some s' ->
     returned_stops s' = 0%nat).
Proof.
  intros Hrun.
  assert (Hs : stops_match_loop s) by (by apply (exec_stops_match tr init s)).
  split; [done|]. split; [|split].
  - destruct s as [lp cs]. simpl. intros -> i Hi. simpl. rewrite Hi.
    eexists. split; [done|]. simpl. split; [done|].
    apply list_lookup_insert_eq. by eapply lookup_lt_Some.
  - intros Hret more s' Hmore. by apply (exec_after_return more s s').
  - intros Hns more s' Hno Hmore.
    pose proof (exec_stops_match more s s' Hs Hmore) as Hs'.
    by rewrite Hs', (exec_before_start more s s' Hns Hno Hmore).
Qed.

End StopChanFacts.

(** * The theorems at work on the test suite's data *)

Module DemoFacts.
Import Demo.

(** [TestSetAndGet] and [TestMetrics] of [main_test.go]. *)
Example TestSetAndGet :
  let c := Set_ (KString "item2") bob25 [] (Set_ (KString "item1") alice30 [] configured) in
  let r1 := Get (KString "item1") 100 c in
  let r2 := Get (KString "nonexistent") 100 r1.2 in
  r1.1 = (alice30, true) /\ r2.1.2 = false /\
  metric (Metrics r2.2) "hits" = 1 /\ metric (Metrics r2.2) "misses" = 1 /\
  metric (Metrics r2.2) "items" = 2.
Proof. vm_compute. done. Qed.

(** [TestExpiration], which never calls [Equals]: the item set at time 0 with
    an expiry at 1000 is created at the first tick and expires at the next
    one that reads the clock after 1000, so the comparison is never reached. *)
Example TestExpiration :
  (r ← run [OpSet (KString "item1") alice30 [1000]; OpTick (env 501);
            OpTick (env 1001)]
         (OnExpiry (fun k item w => w ++ [Expired k item]) unconfigured, []);
   Ok (r.2, (Get (KString "item1") 2000 r.1).1.2)) =
  Ok ([Created [alice30]; Expired "item1" (mkItem alice30 1000);
       Deleted [alice30]], false).
Proof. vm_compute. done. Qed.

(** [TestMemoryUsage]. *)
Example TestMemoryUsage :
  let c := Set_ (KString "item1") alice30 [] configured in
  metric (Metrics c) "memoryUsageBytes" = 96 /\
  metric (Metrics (Delete (KString "item1") c)) "memoryUsageBytes" = 0.
Proof. vm_compute. done. Qed.

(** [TestCreateUpdateDeleteMiddlewares]: one create, one update, one delete. *)
Example TestCreateUpdateDeleteMiddlewares :
  (r ← run [OpSet (KString "item1") alice30 []; OpTick (env 1);
            OpSet (KString "item1") alice31 []; OpTick (env 2);
            OpDelete (KString "item1"); OpTick (env 3)] (configured, []);
   Ok r.2) =
  Ok [Created [alice30]; Updated [alice31]; Deleted [alice31]].
Proof. vm_compute. done. Qed.

Lemma created_updated_once_per_key_witness :
  exists c' w',
    tick_locked (env 10)
      (set_all [(KString "item1", alice31, []); (KString "item1", alice30, []);
                (KString "item1", alice31, []); (KString "item2", bob25, [])]
         ticked) [] = Ok (c', w') /\
    batch (updates c') "created" = [bob25] /\
    batch (updates c') "updated" = [alice31].
Proof.
  destruct (created_updated_once_per_key (env 10)
              [(KString "item1", alice31, []); (KString "item1", alice30, []);
               (KString "item1", alice31, []); (KString "item2", bob25, [])]
              ticked [] eqFunc)
    as (c' & w' & Hrun & _ & Hcr & Hup & _).
  - repeat split; intros m; reflexivity.
  - right. intros k item Hk _. destruct k as [s|n]; [by eexists|].
    vm_compute in Hk. by destruct n.
  - reflexivity.
  - exists c', w'. split; [exact Hrun|]. rewrite Hcr, Hup.
    split; vm_compute; reflexivity.
Defined.

Lemma deleted_once_per_key_witness :
  exists c' w',
    tick_locked (env 10) churned [] = Ok (c', w') /\
    batch (updates c') "deleted" = [bob25; alice30] /\
    w' = [Expired "item2" (mkItem bob25 5)] /\
    metric (Metrics c') "items" = 0 /\
    metric (Metrics c') "memoryUsageBytes" = 0.
Proof.
  destruct (deleted_once_per_key (env 10) churned [] eqFunc)
    as (c' & w' & Hrun & _ & Hd & _ & Hw & Hm & Hi & _ & _ & Hdel & _).
  - repeat split; intros m; reflexivity.
  - right. intros k item Hk _. destruct k as [s|n]; [by eexists|].
    vm_compute in Hk. by destruct n.
  - left. reflexivity.
  - exists c', w'. split; [exact Hrun|]. rewrite Hdel, Hw, Hi, Hm, Hd.
    repeat split; vm_compute; reflexivity.
Defined.

Lemma metrics_track_store_witness :
  exists c w',
    run [OpSet (KString "item1") alice30 []; OpSet (KString "item2") bob25 [5];
         OpSet (KString "item1") alice31 []; OpGet (KString "item1") 3;
         OpTick (env 10); OpDeleteAll listed;
         OpSet (KString "item3") bob25 []] (with_expiry, []) = Ok (c, w') /\
    metric (Metrics c) "items" = 1 /\
    metric (Metrics c) "memoryUsageBytes" = 96.
Proof.
  eexists _, _. split; [vm_compute; reflexivity|].
  destruct (metrics_track_store
              [OpSet (KString "item1") alice30 []; OpSet (KString "item2") bob25 [5];
               OpSet (KString "item1") alice31 []; OpGet (KString "item1") 3;
               OpTick (env 10); OpDeleteAll listed;
               OpSet (KString "item3") bob25 []] with_expiry [])
    as [Hrun _].
  - split; reflexivity.
  - repeat constructor; intros m; reflexivity.
  - destruct (Hrun _ _ ltac:(vm_compute; reflexivity)) as (Hi & Hm & _).
    rewrite Hi, Hm. split; vm_compute; reflexivity.
Defined.

Lemma snapshot_replaced_only_by_tick_witness :
  exists c' w',
    tick_locked (env 10) churned [] = Ok (c', w') /\
    prev c' = data c' /\
    prev (Set_ (KString "item9") bob25 [] churned) = prev churned /\
    prev (DeleteAll listed churned) = prev churned.
Proof.
  destruct (snapshot_replaced_only_by_tick (env 10) churned [])
    as (Hsnap & Hex & Hset & _ & _ & Hall & _).
  - repeat split; intros m; reflexivity.
  - destruct (Hex eqFunc) as (c' & w' & Hrun & _ & _).
    + right. intros k item Hk _. destruct k as [s|n]; [by eexists|].
      vm_compute in Hk. by destruct n.
    + left. reflexivity.
    + exists c', w'. split; [exact Hrun|].
      split; [by apply (Hsnap c' w')|]. split; [apply Hset|apply Hall].
Defined.

Lemma expire_pass_panics_on_non_string_key_with_callback_witness :
  is_ok (expire_pass (env 10) (int_keyed with_expiry, ∅, [])) = false /\
  is_ok (expire_pass (env 10) (int_keyed configured, ∅, [])) = true.
Proof.
  destruct (expire_pass_panics_on_non_string_key_with_callback
              (env 10) (int_keyed with_expiry) [])
    as (_ & Hpanic & _); [intros m; reflexivity|].
  destruct (expire_pass_panics_on_non_string_key_with_callback
              (env 10) (int_keyed configured) [])
    as (_ & _ & Hok & _); [intros m; reflexivity|].
  split.
  - apply Hpanic; [done|]. exists (KInt 7), (mkItem alice30 5).
    repeat split; vm_compute; reflexivity.
  - apply Hok. reflexivity.
Defined.

Lemma Get_hit_or_miss_witness :
  (Get (KString "item1") 100 (Set_ (KString "item1") alice30 [] configured)).1 =
    (alice30, true) /\
  (Get (KString "item2") 10 churned).1 = (zeroT, false).
Proof.
  split.
  - apply (Get_hit_or_miss (KString "item1") 0 configured).
  - destruct (Get_hit_or_miss (KString "item2") 10 churned)
      as (Hmiss & Hzero & _).
    assert (Hfalse : (Get (KString "item2") 10 churned).1.2 = false).
    { apply Hmiss. right. exists (mkItem bob25 5).
      split; [vm_compute; reflexivity|]. simpl. lia. }
    destruct (Hzero Hfalse) as (Hv & _).
    destruct (Get (KString "item2") 10 churned) as [[v found] c'].
    simpl in *. by subst.
Defined.

Lemma Maintain_checks_interval_only_witness :
  Maintain [OpTick (env 1)] (WithInterval 0 configured) [] =
    Panic PanicNonPositiveInterval /\
  tick (env 2)
    (after [OpSet (KString "item1") alice30 []; OpTick (env 1)] unconfigured) [] =
    Panic PanicNilFunc.
Proof.
  split.
  - apply (Maintain_checks_interval_only [OpTick (env 1)]
             (WithInterval 0 configured) []).
    simpl. lia.
  - destruct (Maintain_checks_interval_only []
                (after [OpSet (KString "item1") alice30 []; OpTick (env 1)]
                   unconfigured) [])
      as (_ & _ & Htick).
    destruct (Htick (env 2)) as [_ Hpanic].
    + reflexivity.
    + repeat split; intros m; reflexivity.
    + left. reflexivity.
    + apply Hpanic. exists (KString "item1").
      split; vm_compute; by eexists.
Defined.

(** C9 as stated fails where no expiry callback is registered: the entry under
    the int key is expired, and the expire pass completes. *)
Lemma expire_pass_total_without_callback :
  data (int_keyed configured) !! KInt 7 = Some (mkItem alice30 5) /\
  is_expired 10 (mkItem alice30 5) = true /\
  assert_string (KInt 7) = None /\
  is_ok (expire_pass (env 10) (int_keyed configured, ∅, [])) = true /\
  is_ok (tick (env 10) (int_keyed configured) []) = true.
Proof. vm_compute. done. Qed.

(** C5 as stated fails for the equality predicate: with none configured and a
    positive interval, Maintain starts and completes a first tick; the
    failure comes in the second tick, inside the comparison. *)
Lemma Maintain_starts_without_predicate :
  compareFunc unconfigured = None /\
  0 < interval unconfigured /\
  is_ok (Maintain [OpSet (KString "item1") alice30 []; OpTick (env 1)]
           unconfigured []) = true /\
  Maintain [OpSet (KString "item1") alice30 []; OpTick (env 1); OpTick (env 2)]
    unconfigured [] = Panic PanicNilFunc.
Proof. vm_compute. done. Qed.

End DemoFacts.

Module StopChanDemo.
Import StopChan StopChanFacts.

Lemma Stop_is_one_blocking_handoff_witness :
  exec [CallStop; GoMaintain; TickerFires; TickDone; Receive 0; CallStop] init =
    Some (mkSystem Returned [Done; Sending]) /\
  returned_stops (mkSystem Returned [Done; Sending]) = 1%nat.
Proof.
  split; [reflexivity|].
  apply (Stop_is_one_blocking_handoff
           [CallStop; GoMaintain; TickerFires; TickDone; Receive 0; CallStop]
           (mkSystem Returned [Done; Sending])).
  reflexivity.
Defined.

(** C6 as stated fails: the loop is stopped by a first Stop; a second Stop,
    called after that, is still blocked at its send whatever happens next. *)
Lemma Stop_after_loop_stopped_blocks :
  exec [GoMaintain; CallStop; Receive 0; CallStop] init =
    Some (mkSystem Returned [Done; Sending]) /\
  forall more s',
    exec more (mkSystem Returned [Done; Sending]) = Some s' ->
    callers s' !! 1%nat = Some Sending.
Proof.
  split; [reflexivity|]. intros more s' Hmore.
  by apply (exec_after_return more (mkSystem Returned [Done; Sending]) s').
Qed.

End StopChanDemo.

(** * The further theorems at work on the test suite's data *)

Module CoverageDemo.
Import Demo.

Lemma env_ok_env (now : Z) : env_ok (env now).
Proof. repeat split; intros m; reflexivity. Qed.

Lemma string_keys_of_ticked (now : key -> Z) : expiry_keys_ok now ticked.
Proof.
  right. intros k item Hk _. destruct k as [s|n]; [by eexists|].
  vm_compute in Hk. by destruct n.
Qed.

Lemma string_keys_of_churned (now : key -> Z) : expiry_keys_ok now churned.
Proof.
  right. intros k item Hk _. destruct k as [s|n]; [by eexists|].
  vm_compute in Hk. by destruct n.
Qed.

Lemma data_ticked :
  data ticked = {[ KString "item1" := mkItem alice30 0 ]}.
Proof. vm_compute. reflexivity. Qed.

Lemma none_expired_ticked (now : key -> Z) : none_expired now (data ticked).
Proof.
  intros k item Hk. rewrite data_ticked in Hk.
  apply lookup_singleton_Some in Hk as [_ <-]. reflexivity.
Qed.

Lemma eqFunc_reflexive (d : gmap key (@Item TestStruct)) : reflexive_on eqFunc d.
Proof.
  intros k item _. unfold eqFunc. by rewrite String.eqb_refl, Z.eqb_refl.
Qed.

Lemma GetAll_lists_unexpired_values_witness :
  GetAll listed (fun _ => 3) churned = [bob25] /\
  GetAll listed (fun _ => 10) churned = [].
Proof.
  split.
  - rewrite (proj1 (GetAll_lists_unexpired_values listed (fun _ => 3) churned
                      (fun m => reflexivity _))).
    vm_compute. reflexivity.
  - rewrite (proj1 (GetAll_lists_unexpired_values listed (fun _ => 10) churned
                      (fun m => reflexivity _))).
    vm_compute. reflexivity.
Defined.

Lemma Get_and_GetAll_differ_at_the_expiry_instant_witness :
  (Get (KString "item2") 5 churned).1 = (bob25, true) /\
  KString "item2" ∉ listed_keys (fun _ => 5) (data churned) (listed (data churned)).
Proof.
  destruct (Get_and_GetAll_differ_at_the_expiry_instant listed 5
              (KString "item2") (mkItem bob25 5) churned) as (_ & _ & Hedge).
  - intros m. reflexivity.
  - vm_compute. reflexivity.
  - apply Hedge; [reflexivity|lia].
Defined.

Lemma Set_then_Delete_restores_witness :
  data (Delete (KString "item2") (Set_ (KString "item2") bob25 [7] ticked)) =
    data ticked /\
  metric (Metrics (Delete (KString "item2")
                     (Set_ (KString "item2") bob25 [7] ticked)))
    "memoryUsageBytes" = 96.
Proof.
  destruct (Set_then_Delete_restores (KString "item2") bob25 [7] ticked)
    as (Hd & Hm & _).
  - vm_compute. reflexivity.
  - assert (Hmem : metric (Metrics ticked) "memoryUsageBytes" = 96)
      by (vm_compute; reflexivity).
    rewrite Hmem. unfold GoInt.in_range, GoInt.min_int, GoInt.max_int. lia.
  - split; [exact Hd|]. rewrite Hm. vm_compute. reflexivity.
Defined.

Lemma Get_does_not_evict_witness :
  (Get (KString "item2") 10 churned).1 = (zeroT, false) /\
  data (Get (KString "item2") 10 churned).2 = data churned /\
  (Get (KString "item2") 11 (Get (KString "item2") 10 churned).2).1 =
    (zeroT, false).
Proof.
  destruct (Get_does_not_evict (KString "item2") 10 (mkItem bob25 5) churned)
    as (Hmiss & Hd & _ & _ & Hlater).
  - vm_compute. reflexivity.
  - reflexivity.
  - split; [exact Hmiss|]. split; [exact Hd|]. apply Hlater. lia.
Defined.

Lemma tick_runs_callbacks_in_order_witness :
  exists c',
    tick (env 10) churned [] =
      Ok (c', [Expired "item2" (mkItem bob25 5); Deleted [bob25; alice30]]) /\
    data c' = ∅ /\ prev c' = ∅.
Proof.
  destruct (tick_runs_callbacks_in_order (env 10) churned [] eqFunc)
    as (c' & Hrun & Hd & Hp & _).
  - apply env_ok_env.
  - apply string_keys_of_churned.
  - left. reflexivity.
  - repeat split; reflexivity.
  - exists c'. split; [|split].
    + rewrite Hrun. vm_compute. reflexivity.
    + rewrite Hd. vm_compute. reflexivity.
    + rewrite Hp. vm_compute. reflexivity.
Defined.

Lemma tick_with_no_change_reports_nothing_witness :
  exists c',
    tick (env 10) ticked [Created [alice30]] = Ok (c', [Created [alice30]]) /\
    data c' = data ticked.
Proof.
  destruct (tick_with_no_change_reports_nothing (env 10) ticked
              [Created [alice30]] eqFunc) as (c' & Hrun & Hd & _).
  - apply env_ok_env.
  - repeat split; reflexivity.
  - vm_compute. reflexivity.
  - apply none_expired_ticked.
  - reflexivity.
  - apply eqFunc_reflexive.
  - exists c'. split; [exact Hrun|exact Hd].
Defined.

Lemma second_tick_reports_nothing_witness :
  exists c2,
    tick (env 2) ticked [Created [alice30]] = Ok (c2, [Created [alice30]]) /\
    data c2 = data ticked.
Proof.
  destruct (second_tick_reports_nothing (env 1) (env 2)
              (Set_ (KString "item1") alice30 [] with_expiry) ticked
              [] [Created [alice30]] eqFunc) as (c2 & Hrun & Hd & _).
  - apply env_ok_env.
  - apply env_ok_env.
  - vm_compute. reflexivity.
  - apply none_expired_ticked.
  - reflexivity.
  - apply eqFunc_reflexive.
  - exists c2. split; [exact Hrun|exact Hd].
Defined.

Lemma tick_does_not_change_Get_witness :
  exists c' w',
    tick (env 10) churned [] = Ok (c', w') /\
    (Get (KString "item2") 20 c').1 = (Get (KString "item2") 20 churned).1.
Proof.
  destruct (tick_does_not_change_Get (env 10) churned [] eqFunc)
    as (c' & w' & Hrun & Hget).
  - apply env_ok_env.
  - apply string_keys_of_churned.
  - left. reflexivity.
  - exists c', w'. split; [exact Hrun|]. apply Hget. simpl. lia.
Defined.

Lemma Set_then_Delete_is_not_reported_witness :
  exists c1 c2,
    tick (env 10) ticked [] = Ok (c1, []) /\
    tick (env 10)
      (Delete (KString "item2") (Set_ (KString "item2") bob25 [7] ticked)) [] =
      Ok (c2, []) /\
    data c2 = data c1.
Proof.
  destruct (Set_then_Delete_is_not_reported (env 10) (KString "item2") bob25 [7]
              ticked [] eqFunc) as (c1 & c2 & Hrun1 & Hrun2 & Hd & _).
  - vm_compute. reflexivity.
  - apply env_ok_env.
  - apply string_keys_of_ticked.
  - left. reflexivity.
  - repeat split; reflexivity.
  - exists c1, c2. split; [|split; [|exact Hd]].
    + rewrite Hrun1. vm_compute. reflexivity.
    + rewrite Hrun2. vm_compute. reflexivity.
Defined.

Lemma DeleteAll_is_reported_as_deletes_witness :
  exists c',
    tick (env 10) (DeleteAll listed churned) [] = Ok (c', [Deleted [alice30]]) /\
    data c' = ∅.
Proof.
  destruct (DeleteAll_is_reported_as_deletes (env 10) listed churned [])
    as (c' & Hrun & _ & Hd & _).
  - apply env_ok_env.
  - intros m. reflexivity.
  - repeat split; reflexivity.
  - exists c'. split; [|exact Hd]. rewrite Hrun. vm_compute. reflexivity.
Defined.

Lemma memoryUsageBytes_is_items_times_estimate_witness :
  metric (Metrics churned) "memoryUsageBytes" =
    size_estimate * metric (Metrics churned) "items" /\
  metric (Metrics churned) "items" = 1.
Proof.
  destruct (memoryUsageBytes_is_items_times_estimate
              [OpSet (KString "item1") alice30 []; OpTick (env 1);
               OpSet (KString "item2") bob25 [5]; OpDelete (KString "item1")]
              with_expiry churned [] [Created [alice30]]) as (_ & Hmem).
  - split; reflexivity.
  - repeat constructor; intros m; reflexivity.
  - vm_compute. reflexivity.
  - split; [|vm_compute; reflexivity]. apply Hmem.
    assert (Hprod : size_estimate * metric (Metrics churned) "items" = 96)
      by (vm_compute; reflexivity).
    rewrite Hprod. unfold GoInt.in_range, GoInt.min_int, GoInt.max_int. lia.
Defined.

Lemma Set_shields_key_at_next_tick_witness :
  unexpired (now_at (env 10)) (data (Set_ (KString "item2") alice31 [] churned))
    !! KString "item2" = Some (mkItem alice31 GoTime.zero) /\
  KString "item2" ∉
    expired_keys (now_at (env 10))
      (data (Set_ (KString "item2") alice31 [] churned))
      (ord_expire (env 10) (data (Set_ (KString "item2") alice31 [] churned))).
Proof.
  destruct (Set_shields_key_at_next_tick (env 10) (KString "item2") alice31
              churned eqFunc ∅) as (Hd & He & _).
  - apply env_ok_env.
  - split; [exact Hd|exact He].
Defined.

End CoverageDemo.
